(** * bev::basic_string_view: a shallow embedding of include/bev/string_view.hpp

    The header implements a non-owning string view whose length word [len_]
    also carries a flag bit (the "safederef" bit).  The development below
    follows the header member by member: machine words are [Z] with the
    wrap-around of a 64-bit [size_t] written out, a [const CharT*] is an index
    into a memory of character units, and the members that may throw live in
    a small error monad. *)

From Stdlib Require Import ZArith List Bool Lia String.
Import ListNotations.
Local Open Scope Z_scope.

(** ** Machine words *)

Module Word.

(** [sizeof(size_t)]: the header supports 64-bit [size_t] only. *)
Definition sizeof_size_t : Z := 8.

Definition size_t_modulus : Z := 2 ^ (8 * sizeof_size_t).

(** Reduction of a mathematical integer to the [size_t] it is stored as. *)
Definition u64 (x : Z) : Z := x mod size_t_modulus.

(** Reading a [size_t] as a [ptrdiff_t] (two's complement). *)
Definition to_ptrdiff (x : Z) : Z :=
  if x <? 2 ^ 63 then x else x - size_t_modulus.

(** [~x] on a [size_t]. *)
Definition not64 (x : Z) : Z := u64 (Z.lnot x).

Definition int_max : Z := 2 ^ 31 - 1.
Definition int_min : Z := - 2 ^ 31.

Definition is_size_t (x : Z) : Prop := 0 <= x < size_t_modulus.

End Word.
Import Word.

(** ** Failures *)

Inductive exception : Type :=
| out_of_range (what : string).

Inductive Result (A : Type) : Type :=
| Returns (a : A)
| Throws (e : exception).
Arguments Returns {A} a.
Arguments Throws {A} e.

Definition bind {A B : Type} (r : Result A) (k : A -> Result B) : Result B :=
  match r with
  | Returns a => k a
  | Throws e => Throws e
  end.

Notation "x <- r ;; k" := (bind r (fun x => k))
  (at level 61, r at next level, right associativity).

Definition is_out_of_range {A : Type} (r : Result A) : bool :=
  match r with
  | Throws (out_of_range _) => true
  | Returns _ => false
  end.

(** ** Character units, memory and traits *)

(** A character unit is an integral code unit ([char], [wchar_t], [char16_t],
    [char32_t]); the header compares it against the literal [0].  A unit is
    represented by the integer its traits compare: for [char] that is its
    value as [unsigned char], the reading [std::char_traits<char>::lt]
    orders by. *)
Definition CharT : Type := Z.

(** A [const CharT*] is the index of a character unit; [mem p] is [*p]. *)
Definition pointer : Type := Z.
Definition Mem : Type := pointer -> CharT.

(** The memory that holds the characters [cs] from address [base] on and the
    zero character everywhere else. *)
Definition mem_of (base : pointer) (cs : list CharT) : Mem :=
  fun p => if (base <=? p) && (p <? base + Z.of_nat (List.length cs))
           then nth (Z.to_nat (p - base)) cs 0 else 0.


(** The two comparisons a traits class supplies ([Traits::eq], [Traits::lt]). *)
Class char_traits : Type := {
  eq : CharT -> CharT -> bool;
  lt : CharT -> CharT -> bool
}.

(** What [char.traits.require] asks of [eq] and [lt]. *)
Class char_traits_laws (T : char_traits) : Prop := {
  eq_reflexive : forall a, eq a a = true;
  eq_symmetric : forall a b, eq a b = eq b a;
  lt_connected : forall a b, eq a b = false -> lt a b = negb (lt b a)
}.

(** [std::char_traits<CharT>] on that representation: the equality and the
    order of the integers. *)
#[export] Instance std_char_traits : char_traits :=
  {| eq := Z.eqb; lt := Z.ltb |}.

#[export] Instance std_char_traits_laws : char_traits_laws std_char_traits.
Proof.
  split; simpl; intros.
  - apply Z.eqb_refl.
  - apply Z.eqb_sym.
  - apply Z.eqb_neq in H.
    destruct (Z.ltb_spec a b), (Z.ltb_spec b a); simpl; try reflexivity; lia.
Qed.

Module traits_type.
Section WithTraits.
Context {T : char_traits}.
Variable m : Mem.

(** Modelled from the spec: [Traits::compare] belongs to the standard
    library, not to this repository.  It compares [n] characters pairwise
    in the character unit's ordering: zero when every pair is [eq], negative
    when the first pair that is not [eq] is [lt], positive otherwise.  The
    standard fixes the sign only; the values -1 and 1 are the ones the
    generic [char_traits] loop returns. *)
Fixpoint compare_n (s1 s2 : pointer) (n : nat) : Z :=
  match n with
  | O => 0
  | S n' =>
      if eq (m s1) (m s2) then compare_n (s1 + 1) (s2 + 1) n'
      else if lt (m s1) (m s2) then -1 else 1
  end.

Definition compare (s1 s2 : pointer) (n : Z) : Z :=
  compare_n s1 s2 (Z.to_nat n).

(** Modelled from the spec: [Traits::length] scans for the terminator; the
    scan is given the number of units it may inspect. *)
Fixpoint length_upto (fuel : nat) (s : pointer) : option Z :=
  match fuel with
  | O => None
  | S fuel' =>
      if eq (m s) 0 then Some 0
      else option_map Z.succ (length_upto fuel' (s + 1))
  end.
(** Modelled from the spec: [Traits::find] belongs to the standard library.
    It scans the [n] characters from [s] on for the first one that is [eq] to
    [a] and yields a pointer to it, or the null pointer ([None]) when there
    is none. *)
Fixpoint find_n (s : pointer) (n : nat) (a : CharT) : option pointer :=
  match n with
  | O => None
  | S n' => if eq (m s) a then Some s else find_n (s + 1) n' a
  end.

Definition find (s : pointer) (n : Z) (a : CharT) : option pointer :=
  find_n s (Z.to_nat n) a.
End WithTraits.
End traits_type.

(** ** The view *)

Record basic_string_view : Type := mk_view {
  len_ : Z;
  str_ : pointer
}.

Module sv.

(** The flag helpers of the class. *)
Definition safederef_flag_mask : Z := Z.shiftl 1 (sizeof_size_t - 1).
Definition set_safederef_bit (x : Z) : Z := Z.lor x safederef_flag_mask.
Definition clear_safederef_bit (x : Z) : Z :=
  Z.land x (not64 safederef_flag_mask).
Definition test_safederef_bit (x : Z) : bool :=
  negb (Z.land x safederef_flag_mask =? 0).

Definition npos : Z := u64 (-1).

(** *** Construction *)

(** [basic_string_view()] *)
Definition default_view : basic_string_view :=
  {| len_ := 0; str_ := 0 |}.

(** [basic_string_view(const CharT* str, size_type len)] *)
Definition from_ptr_len (str : pointer) (len : Z) : basic_string_view :=
  {| len_ := len; str_ := str |}.

(** [basic_string_view(const std::basic_string&)], given [s.data()] and
    [s.size()]. *)
Definition from_string (data : pointer) (size : Z) : basic_string_view :=
  {| len_ := set_safederef_bit size; str_ := data |}.

(** The private [basic_string_view(const CharT*, size_type, can_test_safederef)]. *)
Definition from_ptr_len_safederef (str : pointer) (len : Z) : basic_string_view :=
  {| len_ := set_safederef_bit len; str_ := str |}.

(** [basic_string_view(const CharT* str)]: [None] when the terminator scan
    finds no zero within [fuel] units. *)
Definition from_cstr {T : char_traits} (m : Mem) (fuel : nat) (str : pointer)
  : option basic_string_view :=
  option_map (fun n => {| len_ := set_safederef_bit n; str_ := str |})
             (traits_type.length_upto m fuel str).

(** *** Capacity and element access *)

Definition length (v : basic_string_view) : Z := clear_safederef_bit (len_ v).
Definition size (v : basic_string_view) : Z := length v.
Definition empty (v : basic_string_view) : bool := length v =? 0.
Definition data (v : basic_string_view) : pointer := str_ v.

(** [max_size()], for a character unit of [w] bytes. *)
Definition max_size (w : Z) : Z :=
  (npos - sizeof_size_t - 8) / w / 4.

(** [end()]: the address one past the last character. *)
Definition end_ (v : basic_string_view) : pointer := str_ v + length v.

(** The flag the class keeps in [len_]. *)
Definition witness (v : basic_string_view) : bool := test_safederef_bit (len_ v).

Definition at_ (m : Mem) (v : basic_string_view) (pos : Z) : Result CharT :=
  if pos >=? length v then Throws (out_of_range "basic_string_view::at")
  else Returns (m (str_ v + pos)).

(** [is_cstring()] *)
Definition is_cstring (m : Mem) (v : basic_string_view) : bool :=
  if test_safederef_bit (len_ v)
  then negb (m (str_ v + length v) =? 0)
  else false.

(** *** Modifiers *)

(** [remove_prefix(n)] and [remove_suffix(n)] are not embedded: both consist
    of the statement [this->length() -= n], whose left operand is the value
    [length()] returns and not the member [len_].  An assignment to such a
    value is ill-formed, so neither member can be instantiated and neither
    has an effect to describe. *)

(** *** String operations *)

(** [substr(pos, n)], declared [noexcept(false)]. *)
Definition substr (v : basic_string_view) (pos n : Z) : Result basic_string_view :=
  let rlen := Z.min n (u64 (length v - pos)) in
  if test_safederef_bit (len_ v)
  then Returns (from_ptr_len_safederef (str_ v + pos) rlen)
  else Returns (from_ptr_len (str_ v + pos) rlen).

(** [s_compare(n1, n2)]: the difference of two lengths, clamped to [int]. *)
Definition s_compare (n1 n2 : Z) : Z :=
  let diff := to_ptrdiff (u64 (n1 - n2)) in
  if diff >? int_max then int_max
  else if diff <? int_min then int_min
  else diff.

Section Comparison.
Context {T : char_traits}.
Variable m : Mem.

(** [compare(basic_string_view str)] *)
Definition compare (v str : basic_string_view) : Z :=
  let rlen := Z.min (length v) (length str) in
  let ret := traits_type.compare m (str_ v) (str_ str) rlen in
  if ret =? 0 then s_compare (length v) (length str) else ret.

(** [compare(pos1, n1, str)] *)
Definition compare_sub (v : basic_string_view) (pos1 n1 : Z)
           (str : basic_string_view) : Result Z :=
  s <- substr v pos1 n1 ;;
  Returns (compare s str).

(** [compare(pos1, n1, str, pos2, n2)] *)
Definition compare_sub_sub (v : basic_string_view) (pos1 n1 : Z)
           (str : basic_string_view) (pos2 n2 : Z) : Result Z :=
  s1 <- substr v pos1 n1 ;;
  s2 <- substr str pos2 n2 ;;
  Returns (compare s1 s2).

(** [compare(pos1, n1, const CharT* str, n2)] *)
Definition compare_sub_buf (v : basic_string_view) (pos1 n1 : Z)
           (str : pointer) (n2 : Z) : Result Z :=
  s <- substr v pos1 n1 ;;
  Returns (compare s (from_ptr_len str n2)).

(** [operator==] *)
Definition equal (x y : basic_string_view) : bool :=
  (size x =? size y) && (compare x y =? 0).

(** *** Searching *)

(** The loop of [find(const CharT* str, size_type pos, size_type n)]; one
    unit of [fuel] per test of the loop condition. *)
Fixpoint find_loop (v : basic_string_view) (str : pointer) (n : Z)
         (fuel : nat) (pos : Z) : option Z :=
  match fuel with
  | O => None
  | S fuel' =>
      if pos <=? u64 (length v - n) then
        if eq (m (str_ v + pos)) (m str)
           && (traits_type.compare m (str_ v + pos + 1) (str + 1) (u64 (n - 1)) =? 0)
        then Some pos
        else find_loop v str n fuel' (u64 (pos + 1))
      else Some npos
  end.

(** The number of times the loop condition can be tested. *)
Definition find_fuel (v : basic_string_view) (n : Z) : nat :=
  S (S (Z.to_nat (length v - n))).

(** [find(const CharT* str, size_type pos, size_type n)] *)
Definition find_buf (v : basic_string_view) (str : pointer) (pos n : Z)
  : option Z :=
  if n =? 0 then Some (if pos <=? length v then pos else npos)
  else if n <=? length v then find_loop v str n (find_fuel v n) pos
  else Some npos.

(** [find(basic_string_view str, size_type pos)] *)
Definition find (v str : basic_string_view) (pos : Z) : option Z :=
  find_buf v (str_ str) pos (length str).
End Comparison.

(** *** Element access, prefixes and suffixes *)

Section Access.
Context {T : char_traits}.
Variable m : Mem.

(** [operator[](pos)] *)
Definition index (v : basic_string_view) (pos : Z) : CharT := m (str_ v + pos).

(** [front()] and [back()] *)
Definition front (v : basic_string_view) : CharT := m (str_ v).
Definition back (v : basic_string_view) : CharT := m (str_ v + length v - 1).

(** [starts_with(basic_string_view x)] *)
Definition starts_with (v x : basic_string_view) : Result bool :=
  s <- substr v 0 (size x) ;;
  Returns (equal m s x).

(** [starts_with(CharT x)] *)
Definition starts_with_char (v : basic_string_view) (x : CharT) : bool :=
  negb (empty v) && eq (front v) x.

(** [ends_with(basic_string_view x)] *)
Definition ends_with (v x : basic_string_view) : Result bool :=
  if size v >=? size x then
    c <- compare_sub m v (u64 (size v - size x)) npos x ;;
    Returns (c =? 0)
  else Returns false.

(** [ends_with(CharT x)] *)
Definition ends_with_char (v : basic_string_view) (x : CharT) : bool :=
  negb (empty v) && eq (back v) x.

(** The relational operators. *)
Definition not_equal (x y : basic_string_view) : bool := negb (equal m x y).
Definition less (x y : basic_string_view) : bool := compare m x y <? 0.
Definition greater (x y : basic_string_view) : bool := compare m x y >? 0.
Definition less_equal (x y : basic_string_view) : bool := compare m x y <=? 0.
Definition greater_equal (x y : basic_string_view) : bool := compare m x y >=? 0.

(** *** Searching for characters and from the back *)

(** [find(CharT c, size_type pos)] *)
Definition find_char (v : basic_string_view) (c : CharT) (pos : Z) : Z :=
  if pos <? length v then
    let n := u64 (length v - pos) in
    match traits_type.find m (str_ v + pos) n c with
    | Some p => u64 (p - str_ v)
    | None => npos
    end
  else npos.

(** The [do ... while (pos-- > 0)] loop of [rfind(str, pos, n)]. *)
Fixpoint rfind_loop (v : basic_string_view) (str : pointer) (n : Z)
         (fuel : nat) (pos : Z) : option Z :=
  match fuel with
  | O => None
  | S fuel' =>
      if traits_type.compare m (str_ v + pos) str n =? 0 then Some pos
      else if pos >? 0 then rfind_loop v str n fuel' (u64 (pos - 1))
      else Some npos
  end.

(** [rfind(const CharT* str, size_type pos, size_type n)] *)
Definition rfind_buf (v : basic_string_view) (str : pointer) (pos n : Z)
  : option Z :=
  if n <=? length v then
    let pos := Z.min (u64 (length v - n)) pos in
    rfind_loop v str n (S (Z.to_nat pos)) pos
  else Some npos.

(** [rfind(basic_string_view str, size_type pos)] *)
Definition rfind (v str : basic_string_view) (pos : Z) : option Z :=
  rfind_buf v (str_ str) pos (length str).

(** The [for (++size; size-- > 0; )] loop of [rfind(CharT c, size_type pos)],
    entered after the increment. *)
Fixpoint rfind_char_loop (v : basic_string_view) (c : CharT)
         (fuel : nat) (size : Z) : option Z :=
  match fuel with
  | O => None
  | S fuel' =>
      if size >? 0 then
        let size := u64 (size - 1) in
        if eq (m (str_ v + size)) c then Some size
        else rfind_char_loop v c fuel' size
      else Some npos
  end.

(** [rfind(CharT c, size_type pos)] *)
Definition rfind_char (v : basic_string_view) (c : CharT) (pos : Z) : option Z :=
  let size := length v in
  if size >? 0 then
    let size := u64 (size - 1) in
    let size := if size >? pos then pos else size in
    let size := u64 (size + 1) in
    rfind_char_loop v c (S (Z.to_nat size)) size
  else Some npos.

(** The loop of [find_first_of(str, pos, n)]. *)
Fixpoint find_first_of_loop (v : basic_string_view) (str : pointer) (n : Z)
         (fuel : nat) (pos : Z) : option Z :=
  match fuel with
  | O => None
  | S fuel' =>
      if negb (n =? 0) && (pos <? length v) then
        match traits_type.find m str n (m (str_ v + pos)) with
        | Some _ => Some pos
        | None => find_first_of_loop v str n fuel' (u64 (pos + 1))
        end
      else Some npos
  end.

(** The number of times a forward scan from [pos] can test its condition. *)
Definition scan_fuel (v : basic_string_view) (pos : Z) : nat :=
  S (Z.to_nat (length v - pos)).

(** [find_first_of(const CharT* str, size_type pos, size_type n)] *)
Definition find_first_of_buf (v : basic_string_view) (str : pointer) (pos n : Z)
  : option Z :=
  find_first_of_loop v str n (scan_fuel v pos) pos.

(** [find_first_of(basic_string_view str, size_type pos)] *)
Definition find_first_of (v str : basic_string_view) (pos : Z) : option Z :=
  find_first_of_buf v (str_ str) pos (length str).

(** [find_first_of(CharT c, size_type pos)] *)
Definition find_first_of_char (v : basic_string_view) (c : CharT) (pos : Z) : Z :=
  find_char v c pos.

(** The [do ... while (size-- != 0)] loop of [find_last_of(str, pos, n)]. *)
Fixpoint find_last_of_loop (v : basic_string_view) (str : pointer) (n : Z)
         (fuel : nat) (size : Z) : option Z :=
  match fuel with
  | O => None
  | S fuel' =>
      match traits_type.find m str n (m (str_ v + size)) with
      | Some _ => Some size
      | None =>
          if negb (size =? 0) then find_last_of_loop v str n fuel' (u64 (size - 1))
          else Some npos
      end
  end.

(** [find_last_of(const CharT* str, size_type pos, size_type n)] *)
Definition find_last_of_buf (v : basic_string_view) (str : pointer) (pos n : Z)
  : option Z :=
  let size := size v in
  if negb (size =? 0) && negb (n =? 0) then
    let size := u64 (size - 1) in
    let size := if size >? pos then pos else size in
    find_last_of_loop v str n (S (Z.to_nat size)) size
  else Some npos.

(** [find_last_of(basic_string_view str, size_type pos)] *)
Definition find_last_of (v str : basic_string_view) (pos : Z) : option Z :=
  find_last_of_buf v (str_ str) pos (length str).

(** [find_last_of(CharT c, size_type pos)] *)
Definition find_last_of_char (v : basic_string_view) (c : CharT) (pos : Z)
  : option Z :=
  rfind_char v c pos.

(** The loop of [find_first_not_of(str, pos, n)]. *)
Fixpoint find_first_not_of_loop (v : basic_string_view) (str : pointer) (n : Z)
         (fuel : nat) (pos : Z) : option Z :=
  match fuel with
  | O => None
  | S fuel' =>
      if pos <? length v then
        match traits_type.find m str n (m (str_ v + pos)) with
        | None => Some pos
        | Some _ => find_first_not_of_loop v str n fuel' (u64 (pos + 1))
        end
      else Some npos
  end.

(** [find_first_not_of(const CharT* str, size_type pos, size_type n)] *)
Definition find_first_not_of_buf (v : basic_string_view) (str : pointer)
           (pos n : Z) : option Z :=
  find_first_not_of_loop v str n (scan_fuel v pos) pos.

(** [find_first_not_of(basic_string_view str, size_type pos)] *)
Definition find_first_not_of (v str : basic_string_view) (pos : Z) : option Z :=
  find_first_not_of_buf v (str_ str) pos (length str).

(** The loop of [find_first_not_of(CharT c, size_type pos)]. *)
Fixpoint find_first_not_of_char_loop (v : basic_string_view) (c : CharT)
         (fuel : nat) (pos : Z) : option Z :=
  match fuel with
  | O => None
  | S fuel' =>
      if pos <? length v then
        if negb (eq (m (str_ v + pos)) c) then Some pos
        else find_first_not_of_char_loop v c fuel' (u64 (pos + 1))
      else Some npos
  end.

(** [find_first_not_of(CharT c, size_type pos)] *)
Definition find_first_not_of_char (v : basic_string_view) (c : CharT) (pos : Z)
  : option Z :=
  find_first_not_of_char_loop v c (scan_fuel v pos) pos.

(** The [do ... while (size--)] loop of [find_last_not_of(str, pos, n)]. *)
Fixpoint find_last_not_of_loop (v : basic_string_view) (str : pointer) (n : Z)
         (fuel : nat) (size : Z) : option Z :=
  match fuel with
  | O => None
  | S fuel' =>
      match traits_type.find m str n (m (str_ v + size)) with
      | None => Some size
      | Some _ =>
          if negb (size =? 0) then find_last_not_of_loop v str n fuel' (u64 (size - 1))
          else Some npos
      end
  end.

(** [find_last_not_of(const CharT* str, size_type pos, size_type n)] *)
Definition find_last_not_of_buf (v : basic_string_view) (str : pointer)
           (pos n : Z) : option Z :=
  let size := length v in
  if negb (size =? 0) then
    let size := u64 (size - 1) in
    let size := if size >? pos then pos else size in
    find_last_not_of_loop v str n (S (Z.to_nat size)) size
  else Some npos.

(** [find_last_not_of(basic_string_view str, size_type pos)] *)
Definition find_last_not_of (v str : basic_string_view) (pos : Z) : option Z :=
  find_last_not_of_buf v (str_ str) pos (length str).

(** The [do ... while (size--)] loop of [find_last_not_of(CharT c, pos)]. *)
Fixpoint find_last_not_of_char_loop (v : basic_string_view) (c : CharT)
         (fuel : nat) (size : Z) : option Z :=
  match fuel with
  | O => None
  | S fuel' =>
      if negb (eq (m (str_ v + size)) c) then Some size
      else if negb (size =? 0)
           then find_last_not_of_char_loop v c fuel' (u64 (size - 1))
           else Some npos
  end.

(** [find_last_not_of(CharT c, size_type pos)] *)
Definition find_last_not_of_char (v : basic_string_view) (c : CharT) (pos : Z)
  : option Z :=
  let size := length v in
  if negb (size =? 0) then
    let size := u64 (size - 1) in
    let size := if size >? pos then pos else size in
    find_last_not_of_char_loop v c (S (Z.to_nat size)) size
  else Some npos.

(** [operator<<] is not embedded: it is no friend of the class and reads the
    private member [str_], so it cannot be instantiated. *)
End Access.

End sv.

(** ** The hash (namespace [detail]) *)

Module detail.

(** The bytes [hash_bytes_] reads: [buf i] is [buf[i]] as an [unsigned char]. *)
Definition bytes : Type := Z -> Z.

(** [unaligned_load_(p)]: eight bytes copied into a [size_t] (the least
    significant byte first, as on the 64-bit targets the header supports). *)
Definition unaligned_load_ (buf : bytes) (p : Z) : Z :=
  fold_right (fun k acc => buf (p + Z.of_nat k) + 256 * acc) 0 (seq 0 8).

(** The [do ... while (--n >= 0)] loop of [load_bytes_], entered with [n]
    already decremented: [k] is [n + 1]. *)
Fixpoint load_bytes_loop (buf : bytes) (p : Z) (k : nat) (result : Z) : Z :=
  match k with
  | O => result
  | S n => load_bytes_loop buf p n (u64 (u64 (Z.shiftl result 8) + buf (p + Z.of_nat n)))
  end.

(** [load_bytes_(p, n)], for [1 <= n < 8]. *)
Definition load_bytes_ (buf : bytes) (p : Z) (n : Z) : Z :=
  load_bytes_loop buf p (Z.to_nat n) 0.

Definition shift_mix_ (v : Z) : Z := Z.lxor v (Z.shiftr v 47).

Definition mul : Z := u64 (Z.shiftl 0xc6a4a793 32 + 0x5bd1e995).

(** The main loop of [hash_bytes_]: [k] chunks of eight bytes from [p] on. *)
Fixpoint hash_chunks (buf : bytes) (k : nat) (p : Z) (hash : Z) : Z :=
  match k with
  | O => hash
  | S k' =>
      let data := u64 (shift_mix_ (u64 (unaligned_load_ buf p * mul)) * mul) in
      let hash := Z.lxor hash data in
      let hash := u64 (hash * mul) in
      hash_chunks buf k' (p + 8) hash
  end.

(** [hash_bytes_(ptr, len, seed)] *)
Definition hash_bytes_ (buf : bytes) (len seed : Z) : Z :=
  let len_aligned := Z.land len (not64 7) in
  let end_ := len_aligned in
  let hash := Z.lxor seed (u64 (len * mul)) in
  let hash := hash_chunks buf (Z.to_nat (len_aligned / 8)) 0 hash in
  let hash :=
    if negb (Z.land len 7 =? 0) then
      let data := load_bytes_ buf end_ (Z.land len 7) in
      let hash := Z.lxor hash data in
      u64 (hash * mul)
    else hash in
  let hash := u64 (shift_mix_ hash * mul) in
  let hash := shift_mix_ hash in
  hash.

End detail.

(** The call operator of [std::hash<bev::basic_string_view<CharT>>] is
    not embedded: it calls [hash_bytes_] with two arguments, the pointer and
    the length in bytes, where [hash_bytes_] takes a third, the seed, that
    has no default; and it reads the private member [str_]. *)

(** * Properties *)

(** ** The flag bit inside the length word *)

Module FlagFacts.
Import sv.

Lemma mask_value : safederef_flag_mask = 2 ^ 7.
Proof. reflexivity. Qed.

Lemma land_mask (x : Z) :
  Z.land x safederef_flag_mask = if Z.testbit x 7 then 2 ^ 7 else 0.
Proof.
  rewrite mask_value.
  apply Z.bits_inj'; intros n Hn.
  rewrite Z.land_spec, Z.pow2_bits_eqb by lia.
  destruct (Z.eqb_spec 7 n) as [<- | Hne].
  - destruct (Z.testbit x 7);
      [rewrite Z.pow2_bits_true by lia | rewrite Z.bits_0]; reflexivity.
  - rewrite andb_false_r.
    destruct (Z.testbit x 7);
      [rewrite Z.pow2_bits_false by lia | rewrite Z.bits_0]; reflexivity.
Qed.

Lemma test_is_testbit (x : Z) : test_safederef_bit x = Z.testbit x 7.
Proof.
  unfold test_safederef_bit. rewrite land_mask.
  destruct (Z.testbit x 7); reflexivity.
Qed.

Lemma set_value (x : Z) :
  set_safederef_bit x = if Z.testbit x 7 then x else x + 2 ^ 7.
Proof.
  unfold set_safederef_bit.
  pose proof (Z.add_lor_land x safederef_flag_mask) as H.
  rewrite land_mask in H. rewrite mask_value in *.
  destruct (Z.testbit x 7); lia.
Qed.

Lemma not64_mask_bits (n : Z) :
  0 <= n ->
  Z.testbit (not64 safederef_flag_mask) n = (n <? 64) && negb (7 =? n).
Proof.
  intros Hn. unfold not64, u64.
  change size_t_modulus with (2 ^ 64).
  rewrite Z.testbit_mod_pow2 by lia.
  rewrite Z.lnot_spec by lia.
  rewrite mask_value, Z.pow2_bits_eqb by lia. reflexivity.
Qed.

Lemma clear_is_clearbit (x : Z) :
  is_size_t x -> clear_safederef_bit x = Z.clearbit x 7.
Proof.
  intros [Hlo Hhi]. unfold clear_safederef_bit.
  apply Z.bits_inj'; intros n Hn.
  rewrite Z.land_spec, not64_mask_bits, Z.clearbit_eqb by lia.
  destruct (Z.ltb_spec n 64) as [Hlt | Hge]; simpl; [reflexivity|].
  rewrite andb_false_r. symmetry.
  destruct (Z.eq_dec x 0) as [-> | Hx]; [now rewrite Z.bits_0|].
  rewrite (Z.bits_above_log2 x n); [reflexivity | lia |].
  apply Z.log2_lt_pow2; [lia|].
  apply Z.lt_le_trans with (2 ^ 64); [exact Hhi | apply Z.pow_le_mono_r; lia].
Qed.

Lemma clear_value (x : Z) :
  is_size_t x ->
  clear_safederef_bit x = if Z.testbit x 7 then x - 2 ^ 7 else x.
Proof.
  intros Hx. rewrite (clear_is_clearbit x Hx), Z.clearbit_spec'.
  pose proof (Z.lor_ldiff_and x (2 ^ 7)) as Hor.
  pose proof (Z.add_lor_land (Z.ldiff x (2 ^ 7)) (Z.land x (2 ^ 7))) as Hadd.
  rewrite Hor in Hadd.
  assert (Hdisj : Z.land (Z.ldiff x (2 ^ 7)) (Z.land x (2 ^ 7)) = 0).
  { apply Z.bits_inj'; intros n Hn.
    rewrite !Z.land_spec, Z.ldiff_spec, Z.bits_0.
    destruct (Z.testbit x n), (Z.testbit (2 ^ 7) n); reflexivity. }
  rewrite Hdisj in Hadd.
  pose proof (land_mask x) as Hm. rewrite mask_value in Hm.
  destruct (Z.testbit x 7); lia.
Qed.

Lemma clear_testbit (x : Z) :
  is_size_t x -> Z.testbit (clear_safederef_bit x) 7 = false.
Proof.
  intros Hx. rewrite (clear_is_clearbit x Hx). apply Z.clearbit_eq.
Qed.

Lemma set_testbit (x : Z) : Z.testbit (set_safederef_bit x) 7 = true.
Proof.
  unfold set_safederef_bit. rewrite mask_value, <- Z.setbit_spec'.
  apply Z.setbit_eq; lia.
Qed.

Lemma testbit7_bound (x : Z) :
  is_size_t x -> Z.testbit x 7 = true -> 2 ^ 7 <= x.
Proof.
  intros [Hlo Hhi] Hb.
  destruct (Z.lt_ge_cases x (2 ^ 7)) as [Hlt | Hge]; [|exact Hge].
  destruct (Z.eq_dec x 0) as [-> | Hx]; [now rewrite Z.bits_0 in Hb|].
  rewrite (Z.bits_above_log2 x 7) in Hb; [discriminate | lia |].
  apply Z.log2_lt_pow2; lia.
Qed.

Lemma set_size_t (x : Z) : is_size_t x -> is_size_t (set_safederef_bit x).
Proof.
  intros Hx. unfold is_size_t in *. rewrite set_value.
  destruct (Z.testbit x 7) eqn:Hb; [exact Hx|].
  change size_t_modulus with (2 ^ 64) in *.
  assert (Hs : Z.testbit (set_safederef_bit x) 7 = true) by apply set_testbit.
  split; [lia|].
  (* x + 128 cannot carry out of 64 bits: bit 7 of x is clear *)
  unfold set_safederef_bit in Hs.
  assert (Hor : Z.lor x safederef_flag_mask < 2 ^ 64).
  { destruct (Z.eq_dec (Z.lor x safederef_flag_mask) 0) as [E | NE]; [lia|].
    apply Z.log2_lt_pow2.
    - pose proof (Z.lor_nonneg x safederef_flag_mask). rewrite mask_value in *. lia.
    - rewrite Z.log2_lor by (rewrite ?mask_value; lia).
      apply Z.max_lub_lt.
      + destruct (Z.eq_dec x 0) as [-> | Hx0]; [simpl; lia|].
        apply Z.log2_lt_pow2; lia.
      + rewrite mask_value, Z.log2_pow2; lia. }
  pose proof (set_value x) as Hv. unfold set_safederef_bit in Hv.
  rewrite Hb in Hv. lia.
Qed.

Lemma clear_set (x : Z) :
  is_size_t x ->
  clear_safederef_bit (set_safederef_bit x) = clear_safederef_bit x.
Proof.
  intros Hx.
  rewrite (clear_value _ (set_size_t x Hx)), set_testbit, (clear_value x Hx), set_value.
  destruct (Z.testbit x 7); lia.
Qed.

Lemma clear_size_t (x : Z) : is_size_t x -> is_size_t (clear_safederef_bit x).
Proof.
  intros Hx. rewrite (clear_value x Hx).
  destruct (Z.testbit x 7) eqn:Hb; [|exact Hx].
  pose proof (testbit7_bound x Hx Hb). unfold is_size_t in *. lia.
Qed.

Lemma clear_le (x : Z) : is_size_t x -> clear_safederef_bit x <= x.
Proof.
  intros Hx. rewrite (clear_value x Hx). destruct (Z.testbit x 7); lia.
Qed.

Lemma clear_unflagged (x : Z) :
  is_size_t x -> test_safederef_bit x = false -> clear_safederef_bit x = x.
Proof.
  intros Hx Hb. rewrite test_is_testbit in Hb.
  rewrite (clear_value x Hx), Hb. reflexivity.
Qed.

(** Closes [is_size_t] and range goals on closed terms. *)
Ltac closed_range := vm_compute; split; [discriminate | reflexivity].

End FlagFacts.

(** ** View core *)

Module ViewCore.
Import sv FlagFacts.

(** The three characters of "abc" at address 100, followed by zeros. *)
Definition abc_mem : Mem := mem_of 100 [97; 98; 99].

Lemma is_cstring_unfold (m : Mem) (v : basic_string_view) :
  is_cstring m v = witness v && negb (m (data v + length v) =? 0).
Proof.
  unfold is_cstring, witness, data. destruct (test_safederef_bit (len_ v)); reflexivity.
Qed.

(** C1, evaluated on the code: the view built from the null-terminated
    buffer "abc" carries the flag and the character at [data()[length()]] is
    the zero character, yet [is_cstring()] answers [false]; and the view of
    its first two characters, whose next character is 'c', answers [true]. *)
Theorem is_cstring_inverted :
  exists v s,
    from_cstr abc_mem 8 100 = Some v /\
    witness v = true /\
    abc_mem (data v + length v) = 0 /\
    is_cstring abc_mem v = false /\
    substr v 0 2 = Returns s /\
    abc_mem (data s + length s) = 99 /\
    is_cstring abc_mem s = true.
Proof.
  eexists. eexists. repeat split; vm_compute; reflexivity.
Qed.

(** C10, evaluated on the code: the flag mask is [1 << (sizeof(size_t)-1)],
    that is bit 7.  A view built from a pointer and the length 128 (below
    2^63) reports length 0 with the flag set, and a view built with the
    length 2^63 reports length 2^63 with the flag clear. *)
Theorem from_ptr_len_flag_is_bit_7 :
  safederef_flag_mask = 128 /\
  length (from_ptr_len 100 128) = 0 /\
  witness (from_ptr_len 100 128) = true /\
  length (from_ptr_len 100 (2 ^ 63)) = 2 ^ 63 /\
  witness (from_ptr_len 100 (2 ^ 63)) = false.
Proof. repeat split; vm_compute; reflexivity. Qed.

(** C2 as stated fails: the view of "abc" built with the flag set, cut to its
    first two characters, ends one character before the source and still has
    the flag set. *)
Lemma substr_witness_counterexample :
  exists s,
    substr (from_string 100 3) 0 2 = Returns s /\
    end_ s <> end_ (from_string 100 3) /\
    ~ (witness s = true <->
       witness (from_string 100 3) = true /\ end_ s = end_ (from_string 100 3)).
Proof.
  eexists. split; [reflexivity|]. split.
  - vm_compute. congruence.
  - intros [H _]. specialize (H eq_refl). destruct H as [_ H].
    vm_compute in H. congruence.
Qed.

(** C2, amended: [substr] hands the flag of the source on.  A flagged source
    always yields a flagged view, wherever the produced view ends; and when
    the produced length does not itself occupy the flag bit, the produced
    view's flag equals the source's. *)
Theorem substr_hands_flag_on (v : basic_string_view) (pos n : Z) :
  exists s,
    substr v pos n = Returns s /\
    (witness v = true -> witness s = true) /\
    (test_safederef_bit (Z.min n (u64 (length v - pos))) = false ->
     witness s = witness v).
Proof.
  unfold substr, witness.
  destruct (test_safederef_bit (len_ v)) eqn:Hv;
    eexists; (split; [reflexivity|]); simpl.
  - rewrite test_is_testbit, set_testbit. split; reflexivity.
  - split; [discriminate | intros H; exact H].
Qed.

Lemma substr_hands_flag_on_witness :
  exists s,
    substr (from_string 100 3) 0 2 = Returns s /\
    witness s = true /\
    witness s = witness (from_string 100 3).
Proof.
  destruct (substr_hands_flag_on (from_string 100 3) 0 2) as (s & Es & Hset & Hsame).
  exists s. split; [exact Es|]. split.
  - apply Hset. reflexivity.
  - apply Hsame. reflexivity.
Defined.

(** C3 as stated fails: position 5 exceeds the length 3, and neither
    [substr] nor the comparison overloads built on it raise a failure. *)
Lemma substr_out_of_range_counterexample :
  length (from_ptr_len 100 3) < 5 /\
  is_out_of_range (substr (from_ptr_len 100 3) 5 0) = false /\
  is_out_of_range
    (compare_sub abc_mem (from_ptr_len 100 3) 5 0 (from_ptr_len 100 3)) = false.
Proof. repeat split; vm_compute; reflexivity. Qed.

(** C3, amended: [substr] checks nothing and raises no failure for any
    position; it returns the view that starts at [data() + pos]; when
    [pos <= length()] and the count [min(n, length() - pos)] does not occupy
    the flag bit, the view covers that many characters.  The comparison
    overloads on sub-ranges return the comparison of the views [substr]
    returns and raise no failure either. *)
Theorem substr_returns (m : Mem) (v w : basic_string_view) (pos n pos2 n2 : Z)
  (Hv : is_size_t (len_ v)) (Hn : 0 <= n) :
  exists s s2,
    substr v pos n = Returns s /\
    substr w pos2 n2 = Returns s2 /\
    data s = data v + pos /\
    (0 <= pos <= length v ->
     test_safederef_bit (Z.min n (length v - pos)) = false ->
     length s = Z.min n (length v - pos)) /\
    compare_sub m v pos n w = Returns (compare m s w) /\
    compare_sub_sub m v pos n w pos2 n2 = Returns (compare m s s2) /\
    (forall str, compare_sub_buf m v pos n str n2
                 = Returns (compare m s (from_ptr_len str n2))).
Proof.
  assert (Hs : exists s, substr v pos n = Returns s /\
                         str_ s = str_ v + pos /\
                         length s = clear_safederef_bit (Z.min n (u64 (length v - pos)))).
  { unfold substr. destruct (test_safederef_bit (len_ v)); eexists;
      (split; [reflexivity|]); split; try reflexivity.
    unfold length at 1. simpl. apply clear_set.
    pose proof (clear_size_t _ Hv) as Hl. fold (length v) in Hl.
    assert (Hu : is_size_t (u64 (length v - pos)))
      by (apply Z.mod_pos_bound; reflexivity).
    unfold is_size_t in *. lia. }
  assert (Hs2 : exists s2, substr w pos2 n2 = Returns s2).
  { unfold substr. destruct (test_safederef_bit (len_ w)); eexists; reflexivity. }
  destruct Hs as (s & Es & Ep & El). destruct Hs2 as (s2 & Es2).
  exists s, s2. repeat split; try assumption.
  - intros Hpos Hflag.
    pose proof (clear_size_t _ Hv) as Hl. fold (length v) in Hl.
    assert (Hu : u64 (length v - pos) = length v - pos).
    { unfold u64. apply Z.mod_small. unfold is_size_t in Hl. lia. }
    rewrite El, Hu. apply clear_unflagged; [|exact Hflag].
    unfold is_size_t in *. lia.
  - unfold compare_sub. rewrite Es. reflexivity.
  - unfold compare_sub_sub. rewrite Es, Es2. reflexivity.
  - intros str. unfold compare_sub_buf. rewrite Es. reflexivity.
Qed.

Lemma substr_returns_witness :
  exists s,
    substr (from_ptr_len 100 3) 1 5 = Returns s /\
    data s = data (from_ptr_len 100 3) + 1 /\
    length s = Z.min 5 (length (from_ptr_len 100 3) - 1) /\
    compare_sub abc_mem (from_ptr_len 100 3) 1 5 (from_string 100 3)
    = Returns (compare abc_mem s (from_string 100 3)).
Proof.
  assert (Hv : is_size_t (len_ (from_ptr_len 100 3)))
    by closed_range.
  destruct (substr_returns abc_mem (from_ptr_len 100 3) (from_string 100 3)
              1 5 0 2 Hv ltac:(lia))
    as (s & s2 & Es & _ & Ed & El & Ec & _).
  exists s. split; [exact Es|]. split; [exact Ed|]. split; [|exact Ec].
  apply El.
  - vm_compute. split; discriminate.
  - reflexivity.
Defined.

End ViewCore.

(** ** Comparator *)

Module Comparator.
Import sv FlagFacts.

(** The mathematical clamp of a difference into the range of [int]. *)
Definition clamp_int (d : Z) : Z := Z.max int_min (Z.min int_max d).

Section TraitsCompare.
Context {T : char_traits}.
Variable m : Mem.

Lemma compare_n_all_eq (n : nat) : forall s1 s2,
  (forall k, 0 <= k < Z.of_nat n -> eq (m (s1 + k)) (m (s2 + k)) = true) ->
  traits_type.compare_n m s1 s2 n = 0.
Proof.
  induction n as [|n IH]; intros s1 s2 H; simpl; [reflexivity|].
  pose proof (H 0 ltac:(lia)) as H0. rewrite !Z.add_0_r in H0. rewrite H0.
  apply IH. intros k Hk.
  replace (s1 + 1 + k) with (s1 + (k + 1)) by lia.
  replace (s2 + 1 + k) with (s2 + (k + 1)) by lia.
  apply H. lia.
Qed.

Lemma compare_n_zero_inv (n : nat) : forall s1 s2,
  traits_type.compare_n m s1 s2 n = 0 ->
  forall k, 0 <= k < Z.of_nat n -> eq (m (s1 + k)) (m (s2 + k)) = true.
Proof.
  induction n as [|n IH]; intros s1 s2 H k Hk; [lia|].
  simpl in H.
  destruct (eq (m s1) (m s2)) eqn:E.
  - destruct (Z.eq_dec k 0) as [-> | Hk0].
    + now rewrite !Z.add_0_r.
    + replace (s1 + k) with (s1 + 1 + (k - 1)) by lia.
      replace (s2 + k) with (s2 + 1 + (k - 1)) by lia.
      apply IH; [exact H | lia].
  - destruct (lt (m s1) (m s2)); discriminate.
Qed.

Lemma compare_n_first_diff (n : nat) : forall s1 s2 j,
  0 <= j < Z.of_nat n ->
  (forall k, 0 <= k < j -> eq (m (s1 + k)) (m (s2 + k)) = true) ->
  eq (m (s1 + j)) (m (s2 + j)) = false ->
  traits_type.compare_n m s1 s2 n
  = if lt (m (s1 + j)) (m (s2 + j)) then -1 else 1.
Proof.
  induction n as [|n IH]; intros s1 s2 j Hj Hpre Hne; [lia|].
  simpl.
  destruct (Z.eq_dec j 0) as [-> | Hj0].
  - rewrite !Z.add_0_r in *. rewrite Hne. reflexivity.
  - pose proof (Hpre 0 ltac:(lia)) as H0. rewrite !Z.add_0_r in H0. rewrite H0.
    replace (s1 + j) with (s1 + 1 + (j - 1)) in * by lia.
    replace (s2 + j) with (s2 + 1 + (j - 1)) in * by lia.
    apply IH; [lia | | exact Hne].
    intros k Hk.
    replace (s1 + 1 + k) with (s1 + (k + 1)) by lia.
    replace (s2 + 1 + k) with (s2 + (k + 1)) by lia.
    apply Hpre. lia.
Qed.

Lemma compare_n_range (n : nat) : forall s1 s2,
  -1 <= traits_type.compare_n m s1 s2 n <= 1.
Proof.
  induction n as [|n IH]; intros s1 s2; simpl; [lia|].
  destruct (eq (m s1) (m s2)); [apply IH|].
  destruct (lt (m s1) (m s2)); lia.
Qed.

Context {L : char_traits_laws T}.

Lemma compare_n_refl (n : nat) : forall s, traits_type.compare_n m s s n = 0.
Proof.
  intros s. apply compare_n_all_eq. intros k _. apply eq_reflexive.
Qed.

Lemma compare_n_antisym (n : nat) : forall s1 s2,
  traits_type.compare_n m s1 s2 n = - traits_type.compare_n m s2 s1 n.
Proof.
  induction n as [|n IH]; intros s1 s2; simpl; [reflexivity|].
  rewrite (eq_symmetric (m s2) (m s1)).
  destruct (eq (m s1) (m s2)) eqn:E; [apply IH|].
  rewrite (lt_connected _ _ E).
  destruct (lt (m s2) (m s1)); reflexivity.
Qed.
End TraitsCompare.

(** [s_compare] on lengths whose difference a [ptrdiff_t] can hold. *)
Lemma s_compare_exact (n1 n2 : Z) :
  is_size_t n1 -> is_size_t n2 ->
  - 2 ^ 63 <= n1 - n2 < 2 ^ 63 ->
  s_compare n1 n2 = clamp_int (n1 - n2).
Proof.
  unfold is_size_t, s_compare, clamp_int, to_ptrdiff, u64, int_max, int_min.
  change size_t_modulus with (2 ^ 64).
  intros H1 H2 Hd.
  assert (Hdiff : (if (n1 - n2) mod 2 ^ 64 <? 2 ^ 63
                   then (n1 - n2) mod 2 ^ 64
                   else (n1 - n2) mod 2 ^ 64 - 2 ^ 64) = n1 - n2).
  { destruct (Z.le_gt_cases 0 (n1 - n2)) as [Hpos | Hneg].
    - rewrite Z.mod_small by lia.
      destruct (Z.ltb_spec (n1 - n2) (2 ^ 63)); lia.
    - replace ((n1 - n2) mod 2 ^ 64) with (n1 - n2 + 2 ^ 64).
      + destruct (Z.ltb_spec (n1 - n2 + 2 ^ 64) (2 ^ 63)); lia.
      + apply (Z.mod_unique _ _ (-1)); lia. }
  rewrite Hdiff.
  destruct (Z.gtb_spec (n1 - n2) (2 ^ 31 - 1)); [lia|].
  destruct (Z.ltb_spec (n1 - n2) (- 2 ^ 31)); lia.
Qed.

Lemma s_compare_same (n : Z) : s_compare n n = 0.
Proof. unfold s_compare. rewrite Z.sub_diag. reflexivity. Qed.

Lemma clamp_int_antisym (d : Z) :
  Z.abs d <= int_max -> clamp_int d = - clamp_int (- d).
Proof. unfold clamp_int, int_max, int_min. lia. Qed.

Definition two_gib_view : basic_string_view := from_ptr_len 100 (2 ^ 31).

(** What [compare] returns: the first pair of characters that is not [eq]
    decides the sign; when every pair is [eq], the difference of the lengths
    clamped into the range of [int], as long as that difference fits a
    [ptrdiff_t]. *)
Lemma compare_cases {T : char_traits} (m : Mem) (v w : basic_string_view)
  (Hv : is_size_t (len_ v)) (Hw : is_size_t (len_ w)) :
  ((forall k, 0 <= k < Z.min (length v) (length w) ->
              eq (m (str_ v + k)) (m (str_ w + k)) = true) ->
   - 2 ^ 63 <= length v - length w < 2 ^ 63 ->
   compare m v w = clamp_int (length v - length w) /\
   int_min <= compare m v w <= int_max) /\
  (forall j, 0 <= j < Z.min (length v) (length w) ->
     (forall k, 0 <= k < j -> eq (m (str_ v + k)) (m (str_ w + k)) = true) ->
     eq (m (str_ v + j)) (m (str_ w + j)) = false ->
     if lt (m (str_ v + j)) (m (str_ w + j))
     then compare m v w < 0 else 0 < compare m v w).
Proof.
  pose proof (clear_size_t _ Hv) as Hlv. fold (length v) in Hlv.
  pose proof (clear_size_t _ Hw) as Hlw. fold (length w) in Hlw.
  assert (Hr : 0 <= Z.min (length v) (length w)) by (unfold is_size_t in *; lia).
  split.
  - intros Hall Hd. unfold compare, traits_type.compare.
    rewrite compare_n_all_eq by (intros k Hk; apply Hall; lia). simpl.
    rewrite s_compare_exact by assumption.
    split; [reflexivity|]. unfold clamp_int, int_min, int_max. lia.
  - intros j Hj Hpre Hne. unfold compare, traits_type.compare.
    rewrite (compare_n_first_diff m _ _ _ j) by (try assumption; lia).
    destruct (lt (m (str_ v + j)) (m (str_ w + j))); simpl; lia.
Qed.

(** C5: for every pair of views (of fewer than 2^63 characters, as every
    view within [max_size()] is), [compare] compares the first
    [min(length(), other.length())] characters pairwise in the order of the
    character traits, the first pair that is not equal deciding the sign;
    when all compared characters are equal it returns the difference
    [length() - other.length()] clamped into the range of [int], at most
    2^31-1 and at least -2^31. *)
Theorem compare_chars_then_length {T : char_traits} (m : Mem)
  (v w : basic_string_view)
  (Hv : is_size_t (len_ v)) (Hw : is_size_t (len_ w))
  (Hlv : length v < 2 ^ 63) (Hlw : length w < 2 ^ 63) :
  ((forall k, 0 <= k < Z.min (length v) (length w) ->
              eq (m (str_ v + k)) (m (str_ w + k)) = true) ->
   compare m v w = clamp_int (length v - length w) /\
   - 2 ^ 31 <= compare m v w <= 2 ^ 31 - 1) /\
  (forall j, 0 <= j < Z.min (length v) (length w) ->
     (forall k, 0 <= k < j -> eq (m (str_ v + k)) (m (str_ w + k)) = true) ->
     eq (m (str_ v + j)) (m (str_ w + j)) = false ->
     if lt (m (str_ v + j)) (m (str_ w + j))
     then compare m v w < 0 else 0 < compare m v w).
Proof.
  pose proof (clear_size_t _ Hv) as Hsv. fold (length v) in Hsv.
  pose proof (clear_size_t _ Hw) as Hsw. fold (length w) in Hsw.
  destruct (compare_cases m v w Hv Hw) as [Hequal Hfirst].
  split; [|exact Hfirst].
  intros Hall. apply Hequal; [exact Hall|].
  unfold is_size_t in Hsv, Hsw. lia.
Qed.

Lemma compare_chars_then_length_witness :
  compare ViewCore.abc_mem (from_string 100 3) (from_ptr_len 100 2)
  = clamp_int (length (from_string 100 3) - length (from_ptr_len 100 2)) /\
  compare ViewCore.abc_mem (from_string 100 3) (from_ptr_len 101 2) < 0.
Proof.
  assert (H1 : is_size_t (len_ (from_string 100 3))) by closed_range.
  assert (H2 : is_size_t (len_ (from_ptr_len 100 2))) by closed_range.
  assert (H3 : is_size_t (len_ (from_ptr_len 101 2))) by closed_range.
  split.
  - destruct (compare_chars_then_length ViewCore.abc_mem (from_string 100 3)
                (from_ptr_len 100 2) H1 H2 ltac:(reflexivity) ltac:(reflexivity))
      as [Hall _].
    apply Hall. intros k _. apply Z.eqb_refl.
  - destruct (compare_chars_then_length ViewCore.abc_mem (from_string 100 3)
                (from_ptr_len 101 2) H1 H3 ltac:(reflexivity) ltac:(reflexivity))
      as [_ Hfirst].
    apply (Hfirst 0).
    + closed_range.
    + intros k Hk. lia.
    + reflexivity.
Defined.

(** C6 as stated fails: the empty view against a view of 2^31 characters
    gives -2^31 one way and 2^31-1 the other. *)
Lemma compare_antisym_counterexample :
  compare ViewCore.abc_mem default_view two_gib_view = - 2 ^ 31 /\
  compare ViewCore.abc_mem two_gib_view default_view = 2 ^ 31 - 1 /\
  compare ViewCore.abc_mem default_view two_gib_view
  <> - compare ViewCore.abc_mem two_gib_view default_view.
Proof. repeat split; vm_compute; congruence. Qed.

(** C6, amended: [v.compare(v)] is 0, and [v.compare(w)] is the negation of
    [w.compare(v)] whenever the two views differ within their common prefix
    or their lengths differ by less than 2^31; past that the clamp into
    [-2^31, 2^31-1] is not symmetric. *)
Theorem compare_antisym {T : char_traits} {L : char_traits_laws T}
  (m : Mem) (v w : basic_string_view)
  (Hv : is_size_t (len_ v)) (Hw : is_size_t (len_ w)) :
  compare m v v = 0 /\
  (Z.abs (length v - length w) <= int_max \/
   traits_type.compare m (str_ v) (str_ w) (Z.min (length v) (length w)) <> 0 ->
   compare m v w = - compare m w v).
Proof.
  pose proof (clear_size_t _ Hv) as Hlv. fold (length v) in Hlv.
  pose proof (clear_size_t _ Hw) as Hlw. fold (length w) in Hlw.
  split.
  - unfold compare, traits_type.compare.
    rewrite (@compare_n_refl T m L). simpl. apply s_compare_same.
  - intros Hcase. unfold compare.
    rewrite (Z.min_comm (length w) (length v)).
    unfold traits_type.compare in *.
    rewrite (@compare_n_antisym T m L _ (str_ w) (str_ v)).
    set (c := traits_type.compare_n m (str_ v) (str_ w)
                (Z.to_nat (Z.min (length v) (length w)))) in *.
    destruct (Z.eqb_spec c 0) as [Hc | Hc].
    + rewrite Hc. simpl.
      destruct Hcase as [Hd | Hne]; [|congruence].
      unfold int_max in Hd.
      rewrite !s_compare_exact by (try assumption; lia).
      replace (length w - length v) with (- (length v - length w)) by lia.
      apply clamp_int_antisym. exact Hd.
    + destruct (Z.eqb_spec (- c) 0) as [Hc' | Hc']; [lia | lia].
Qed.

Lemma compare_antisym_witness :
  compare ViewCore.abc_mem (from_string 100 3) (from_string 100 3) = 0 /\
  compare ViewCore.abc_mem (from_string 100 3) (from_ptr_len 100 2)
  = - compare ViewCore.abc_mem (from_ptr_len 100 2) (from_string 100 3).
Proof.
  assert (H1 : is_size_t (len_ (from_string 100 3)))
    by closed_range.
  assert (H2 : is_size_t (len_ (from_ptr_len 100 2)))
    by closed_range.
  destruct (@compare_antisym std_char_traits std_char_traits_laws
              ViewCore.abc_mem (from_string 100 3) (from_ptr_len 100 2) H1 H2)
    as [Hrefl Hneg].
  split; [exact Hrefl|].
  apply Hneg. left. vm_compute. discriminate.
Defined.

End Comparator.

(** ** Search engine *)

Module Search.
Import sv FlagFacts.

Section Find.
Context {T : char_traits}.
Variable m : Mem.

(** The [n] characters of [v] from index [i] on are those at [str]. *)
Definition same_chars (v : basic_string_view) (str : pointer) (n i : Z) : Prop :=
  forall k, 0 <= k < n -> eq (m (str_ v + i + k)) (m (str + k)) = true.

(** The pattern view [p] occurs in [v] at index [i]. *)
Definition occurs_at (v p : basic_string_view) (i : Z) : Prop :=
  0 <= i /\ i + length p <= length v /\ same_chars v (str_ p) (length p) i.

Lemma loop_test_true (v : basic_string_view) (str : pointer) (n pos : Z) :
  1 <= n ->
  eq (m (str_ v + pos)) (m str)
  && (traits_type.compare m (str_ v + pos + 1) (str + 1) (n - 1) =? 0) = true
  <-> same_chars v str n pos.
Proof.
  intros Hn. unfold same_chars, traits_type.compare. split.
  - intros H k Hk. apply andb_true_iff in H. destruct H as [H0 Hrest].
    apply Z.eqb_eq in Hrest.
    destruct (Z.eq_dec k 0) as [-> | Hk0].
    + now rewrite !Z.add_0_r.
    + replace (str_ v + pos + k) with (str_ v + pos + 1 + (k - 1)) by lia.
      replace (str + k) with (str + 1 + (k - 1)) by lia.
      apply (Comparator.compare_n_zero_inv m _ _ _ Hrest). lia.
  - intros H. apply andb_true_iff. split.
    + specialize (H 0 ltac:(lia)). now rewrite !Z.add_0_r in H.
    + apply Z.eqb_eq. apply Comparator.compare_n_all_eq. intros k Hk.
      replace (str_ v + pos + 1 + k) with (str_ v + pos + (k + 1)) by lia.
      replace (str + 1 + k) with (str + (k + 1)) by lia.
      apply H. lia.
Qed.

(** What the loop of [find] computes, given fuel for every test of its
    condition. *)
Lemma find_loop_spec (v : basic_string_view) (str : pointer) (n : Z) :
  1 <= n <= length v -> is_size_t (length v) ->
  forall (fuel : nat) (pos : Z),
    0 <= pos ->
    length v - n - pos + 1 < Z.of_nat fuel ->
    (0 < Z.of_nat fuel) ->
    exists r, find_loop m v str n fuel pos = Some r /\
      ((pos <= r <= length v - n /\ same_chars v str n r /\
        forall i, pos <= i < r -> ~ same_chars v str n i)
       \/ (r = npos /\ forall i, pos <= i <= length v - n -> ~ same_chars v str n i)).
Proof.
  intros [Hn Hfit] Hl.
  assert (Hw1 : u64 (length v - n) = length v - n)
    by (apply Z.mod_small; unfold is_size_t in Hl; lia).
  assert (Hw2 : u64 (n - 1) = n - 1)
    by (apply Z.mod_small; unfold is_size_t in Hl; lia).
  induction fuel as [|fuel IH]; intros pos Hpos Hfuel Hnz; [lia|].
  simpl. rewrite Hw1, Hw2.
  destruct (Z.leb_spec pos (length v - n)) as [Hin | Hout].
  - destruct (eq (m (str_ v + pos)) (m str)
              && (traits_type.compare m (str_ v + pos + 1) (str + 1) (n - 1) =? 0))
      eqn:Htest.
    + exists pos. split; [reflexivity|]. left.
      apply loop_test_true in Htest; [|exact Hn].
      split; [lia|]. split; [exact Htest|]. intros i Hi. lia.
    + assert (Hnext : u64 (pos + 1) = pos + 1).
      { unfold u64. apply Z.mod_small. unfold is_size_t in Hl. lia. }
      rewrite Hnext.
      destruct (IH (pos + 1)) as (r & Er & Hr); try lia.
      exists r. split; [exact Er|].
      assert (Hhere : ~ same_chars v str n pos).
      { intros Hs. apply (loop_test_true v str n pos Hn) in Hs. congruence. }
      destruct Hr as [(Hrange & Hs & Hmin) | (Hnp & Hnone)].
      * left. split; [lia|]. split; [exact Hs|].
        intros i Hi. destruct (Z.eq_dec i pos) as [-> | Hne]; [exact Hhere|].
        apply Hmin. lia.
      * right. split; [exact Hnp|].
        intros i Hi. destruct (Z.eq_dec i pos) as [-> | Hne]; [exact Hhere|].
        apply Hnone. lia.
  - exists npos. split; [reflexivity|]. right. split; [reflexivity|].
    intros i Hi. lia.
Qed.

Lemma length_below_npos (v : basic_string_view) :
  is_size_t (len_ v) -> length v < npos.
Proof.
  intros Hv. unfold length.
  pose proof (clear_size_t _ Hv) as Hc.
  pose proof (clear_testbit _ Hv) as Hb.
  assert (Hne : clear_safederef_bit (len_ v) <> npos).
  { intros E. rewrite E in Hb. vm_compute in Hb. discriminate. }
  unfold is_size_t in Hc. change size_t_modulus with (2 ^ 64) in Hc.
  change npos with (2 ^ 64 - 1) in *. lia.
Qed.

(** [find(p, startPos)] returns, and what it returns is the least index at
    or after [startPos] where [p] occurs, or [npos] when there is none. *)
Lemma find_least (v p : basic_string_view) (startPos : Z) :
  is_size_t (len_ v) -> is_size_t (len_ p) -> 0 <= startPos ->
  exists r, find m v p startPos = Some r /\
    ((r <> npos /\ startPos <= r /\ occurs_at v p r /\
      forall i, startPos <= i < r -> ~ occurs_at v p i)
     \/ (r = npos /\ forall i, startPos <= i -> ~ occurs_at v p i)).
Proof.
  intros Hv Hp Hs.
  pose proof (clear_size_t _ Hv) as Hlv. fold (length v) in Hlv.
  pose proof (clear_size_t _ Hp) as Hlp. fold (length p) in Hlp.
  pose proof (length_below_npos v Hv) as Hnpos.
  unfold find, find_buf.
  destruct (Z.eqb_spec (length p) 0) as [Hz | Hnz].
  - destruct (Z.leb_spec startPos (length v)) as [Hle | Hgt].
    + exists startPos. split; [reflexivity|]. left.
      split; [lia|]. split; [lia|]. split.
      * unfold occurs_at, same_chars. rewrite Hz. repeat split; try lia.
      * intros i Hi. lia.
    + exists npos. split; [reflexivity|]. right. split; [reflexivity|].
      intros i Hi [_ [Hb _]]. unfold is_size_t in Hlp. lia.
  - assert (Hn : 1 <= length p) by (unfold is_size_t in Hlp; lia).
    destruct (Z.leb_spec (length p) (length v)) as [Hfit | Hlong].
    + destruct (find_loop_spec v (str_ p) (length p) (conj Hn Hfit) Hlv
                  (find_fuel v (length p)) startPos Hs) as (r & Er & Hr).
      { unfold find_fuel. lia. }
      { unfold find_fuel. lia. }
      exists r. split; [exact Er|].
      destruct Hr as [(Hrange & Hsame & Hmin) | (Hnp & Hnone)].
      * left. split; [lia|]. split; [lia|]. split.
        -- unfold occurs_at. repeat split; try lia. exact Hsame.
        -- intros i Hi [_ [_ Hsi]]. exact (Hmin i Hi Hsi).
      * right. split; [exact Hnp|].
        intros i Hi [_ [Hb Hsi]]. apply (Hnone i); [lia | exact Hsi].
    + exists npos. split; [reflexivity|]. right. split; [reflexivity|].
      intros i Hi [_ [Hb _]]. lia.
Qed.
End Find.

(** C7: for a view [v], a pattern view [p] and a start position, [find]
    returns the smallest index [r >= startPos] at which the characters of
    [v] in [r, r + |p|) equal [p], and the sentinel [npos] when there is no
    such index; for the empty pattern it returns [startPos] when
    [startPos <= length()] and the sentinel otherwise; for
    [startPos > length()] it returns the sentinel; the sentinel is the
    largest [size_type] value. *)
Theorem find_spec {T : char_traits} (m : Mem) (v p : basic_string_view)
  (startPos : Z)
  (Hv : is_size_t (len_ v)) (Hp : is_size_t (len_ p))
  (Hs : is_size_t startPos) :
  exists r, find m v p startPos = Some r /\
    ((r <> npos /\ startPos <= r /\ occurs_at m v p r /\
      forall i, startPos <= i < r -> ~ occurs_at m v p i)
     \/ (r = npos /\ forall i, startPos <= i -> ~ occurs_at m v p i)) /\
    (length p = 0 -> r = if startPos <=? length v then startPos else npos) /\
    (length v < startPos -> r = npos) /\
    npos = size_t_modulus - 1.
Proof.
  destruct (find_least m v p startPos Hv Hp (proj1 Hs)) as (r & Er & Hr).
  exists r. split; [exact Er|]. split; [exact Hr|].
  pose proof (clear_size_t _ Hp) as Hlp. fold (length p) in Hlp.
  split; [|split; [|reflexivity]].
  - intros Hz. unfold find, find_buf in Er. rewrite Hz in Er. simpl in Er.
    congruence.
  - intros Hgt. destruct Hr as [(_ & Hle & (_ & Hb & _) & _) | (Hnp & _)];
      [|exact Hnp].
    unfold is_size_t in Hlp. lia.
Qed.

Lemma find_spec_witness :
  (exists r,
     find ViewCore.abc_mem (from_string 100 3) (from_ptr_len 101 2) 0 = Some r /\
     ((r <> npos /\ 0 <= r /\
       occurs_at ViewCore.abc_mem (from_string 100 3) (from_ptr_len 101 2) r /\
       forall i, 0 <= i < r ->
         ~ occurs_at ViewCore.abc_mem (from_string 100 3) (from_ptr_len 101 2) i)
      \/ (r = npos /\
          forall i, 0 <= i ->
            ~ occurs_at ViewCore.abc_mem (from_string 100 3) (from_ptr_len 101 2) i))) /\
  (exists r,
     find ViewCore.abc_mem (from_string 100 3) default_view 2 = Some r /\ r = 2) /\
  (exists r,
     find ViewCore.abc_mem (from_string 100 3) (from_ptr_len 101 2) 7 = Some r /\
     r = npos).
Proof.
  assert (Hv : is_size_t (len_ (from_string 100 3))) by closed_range.
  assert (Hp : is_size_t (len_ (from_ptr_len 101 2))) by closed_range.
  assert (He : is_size_t (len_ default_view)) by closed_range.
  split; [|split].
  - destruct (find_spec ViewCore.abc_mem (from_string 100 3) (from_ptr_len 101 2) 0
                Hv Hp ltac:(closed_range)) as (r & Er & Hr & _).
    exists r. split; [exact Er | exact Hr].
  - destruct (find_spec ViewCore.abc_mem (from_string 100 3) default_view 2
                Hv He ltac:(closed_range)) as (r & Er & _ & Hempty & _).
    exists r. split; [exact Er|]. apply Hempty. reflexivity.
  - destruct (find_spec ViewCore.abc_mem (from_string 100 3) (from_ptr_len 101 2) 7
                Hv Hp ltac:(closed_range)) as (r & Er & _ & _ & Hpast & _).
    exists r. split; [exact Er|]. apply Hpast. reflexivity.
Defined.

(** C9: for a view [v] and indices [0 <= i <= j <= v.length()], searching
    [v] from position 0 for [v.substr(i, j - i)] returns an index that is at
    most [i]. *)
Theorem find_substr_roundtrip {T : char_traits} {L : char_traits_laws T}
  (m : Mem) (v : basic_string_view) (i j : Z)
  (Hv : is_size_t (len_ v)) (Hi : 0 <= i <= j) (Hj : j <= length v) :
  exists s r,
    substr v i (j - i) = Returns s /\
    find m v s 0 = Some r /\
    r <= i.
Proof.
  pose proof (clear_size_t _ Hv) as Hlv. fold (length v) in Hlv.
  assert (Hu : u64 (length v - i) = length v - i).
  { unfold u64. apply Z.mod_small. unfold is_size_t in Hlv. lia. }
  assert (Hrlen : Z.min (j - i) (u64 (length v - i)) = j - i) by (rewrite Hu; lia).
  assert (Hrs : is_size_t (j - i)) by (unfold is_size_t in *; lia).
  assert (Hs : exists s, substr v i (j - i) = Returns s /\
                         str_ s = str_ v + i /\ is_size_t (len_ s) /\
                         length s <= j - i).
  { unfold substr. rewrite Hrlen.
    destruct (test_safederef_bit (len_ v)); eexists;
      (split; [reflexivity|]); (split; [reflexivity|]); simpl.
    - split; [apply set_size_t; exact Hrs|].
      unfold length. simpl. rewrite clear_set by exact Hrs.
      apply clear_le; exact Hrs.
    - split; [exact Hrs|]. unfold length. simpl. apply clear_le; exact Hrs. }
  destruct Hs as (s & Es & Eptr & Hss & Hlen).
  assert (Hocc : occurs_at m v s i).
  { unfold occurs_at, same_chars. split; [lia|]. split; [lia|].
    intros k Hk. rewrite Eptr. apply eq_reflexive. }
  destruct (find_least m v s 0 Hv Hss (Z.le_refl 0)) as (r & Er & Hr).
  exists s, r. split; [exact Es|]. split; [exact Er|].
  destruct Hr as [(_ & _ & _ & Hmin) | (_ & Hnone)].
  - destruct (Z.le_gt_cases r i) as [Hle | Hgt]; [exact Hle|].
    exfalso. apply (Hmin i); [lia | exact Hocc].
  - exfalso. apply (Hnone i); [lia | exact Hocc].
Qed.

Lemma find_substr_roundtrip_witness :
  exists s r,
    substr (from_string 100 3) 1 (3 - 1) = Returns s /\
    find ViewCore.abc_mem (from_string 100 3) s 0 = Some r /\
    r <= 1.
Proof.
  apply (@find_substr_roundtrip std_char_traits std_char_traits_laws
           ViewCore.abc_mem (from_string 100 3) 1 3).
  - closed_range.
  - lia.
  - vm_compute. discriminate.
Defined.

End Search.

(** ** Hasher *)

Module Hasher.
Import sv FlagFacts detail.

(** Two buffers that agree on the offsets [hash_bytes_] reads. *)
Definition agree_below (len : Z) (b1 b2 : bytes) : Prop :=
  forall i, 0 <= i < len -> b1 i = b2 i.

Lemma unaligned_load_ext (b1 b2 : bytes) (p : Z) :
  (forall k, (k < 8)%nat -> b1 (p + Z.of_nat k) = b2 (p + Z.of_nat k)) ->
  unaligned_load_ b1 p = unaligned_load_ b2 p.
Proof.
  intros H. unfold unaligned_load_.
  assert (Hin : forall k, In k (seq 0 8) -> b1 (p + Z.of_nat k) = b2 (p + Z.of_nat k)).
  { intros k Hk. apply in_seq in Hk. apply H. lia. }
  revert Hin. generalize (seq 0 8) as l.
  induction l as [|k l IH]; intros Hin; cbn [fold_right]; [reflexivity|].
  rewrite (Hin k) by (left; reflexivity).
  rewrite IH; [reflexivity|]. intros k' Hk'. apply Hin. right. exact Hk'.
Qed.

Lemma hash_chunks_ext (b1 b2 : bytes) (k : nat) : forall p hash,
  (forall i, p <= i < p + 8 * Z.of_nat k -> b1 i = b2 i) ->
  hash_chunks b1 k p hash = hash_chunks b2 k p hash.
Proof.
  induction k as [|k IH]; intros p hash H; simpl; [reflexivity|].
  rewrite (unaligned_load_ext b1 b2 p) by (intros j Hj; apply H; lia).
  apply IH. intros i Hi. apply H. lia.
Qed.

Lemma load_bytes_loop_ext (b1 b2 : bytes) (p : Z) (k : nat) : forall result,
  (forall n, (n < k)%nat -> b1 (p + Z.of_nat n) = b2 (p + Z.of_nat n)) ->
  load_bytes_loop b1 p k result = load_bytes_loop b2 p k result.
Proof.
  induction k as [|k IH]; intros result H; simpl; [reflexivity|].
  rewrite (H k) by lia. apply IH. intros n Hn. apply H. lia.
Qed.

(** The aligned part and the tail of a length add up to the length. *)
Lemma aligned_split (len : Z) :
  is_size_t len ->
  0 <= Z.land len (not64 7) /\ 0 <= Z.land len 7 /\
  Z.land len (not64 7) + Z.land len 7 = len.
Proof.
  intros [Hlo Hhi]. change size_t_modulus with (2 ^ 64) in Hhi.
  split; [apply Z.land_nonneg; left; exact Hlo|].
  split; [apply Z.land_nonneg; left; exact Hlo|].
  pose proof (Z.add_lor_land (Z.land len (not64 7)) (Z.land len 7)) as Hadd.
  rewrite <- Z.land_lor_distr_r in Hadd.
  change (Z.lor (not64 7) 7) with (Z.ones 64) in Hadd.
  rewrite Z.land_ones in Hadd by lia.
  rewrite Z.mod_small in Hadd by lia.
  assert (Hdisj : Z.land (Z.land len (not64 7)) (Z.land len 7) = 0).
  { rewrite (Z.land_comm len 7), Z.land_assoc, <- (Z.land_assoc len).
    change (Z.land (not64 7) 7) with 0. now rewrite Z.land_0_r, Z.land_0_l. }
  rewrite Hdisj in Hadd. lia.
Qed.

(** C8, on the code: the call operator of [std::hash] hands [hash_bytes_]
    two arguments where it takes three and reads a private member, so it
    computes the hash of no view.  What [hash_bytes_] itself does, for every
    seed: it depends on the buffer through its first [len] bytes only, so two
    buffers of one length with identical content have one hash, wherever
    they lie and whatever follows them. *)
Theorem hash_bytes_equal_content (b1 b2 : bytes) (len seed : Z)
  (Hlen : is_size_t len) (Hag : agree_below len b1 b2) :
  hash_bytes_ b1 len seed = hash_bytes_ b2 len seed.
Proof.
  unfold hash_bytes_.
  destruct (aligned_split len Hlen) as (Ha & Ht & Hsum).
  assert (Hq : 8 * (Z.land len (not64 7) / 8) <= Z.land len (not64 7)).
  { apply Z.mul_div_le. lia. }
  assert (Hq0 : 0 <= Z.land len (not64 7) / 8) by (apply Z.div_pos; lia).
  rewrite (hash_chunks_ext b1 b2).
  2:{ intros i Hi. apply Hag. rewrite Z2Nat.id in Hi by exact Hq0. lia. }
  destruct (Z.land len 7 =? 0); simpl; [reflexivity|].
  unfold load_bytes_.
  rewrite (load_bytes_loop_ext b1 b2); [reflexivity|].
  intros n Hn. apply Hag. lia.
Qed.

(** The bytes of "abc" followed by a byte [tail]. *)
Definition abc_then (tail : Z) : bytes :=
  fun i => if i <? 3 then nth (Z.to_nat i) [97; 98; 99] 0 else tail.

Lemma hash_bytes_equal_content_witness :
  hash_bytes_ (abc_then 0) 3 0xc70f6907 = hash_bytes_ (abc_then 120) 3 0xc70f6907.
Proof.
  apply (hash_bytes_equal_content (abc_then 0) (abc_then 120) 3 0xc70f6907).
  - closed_range.
  - intros i Hi. unfold abc_then.
    destruct (Z.ltb_spec i 3); [reflexivity | lia].
Defined.

End Hasher.

(** ** Concrete cases *)

Module Examples.
Import sv.

(** "abc", "ab", "x" and "abd", each followed by a zero character. *)
Definition text : Mem :=
  mem_of 100 [97; 98; 99; 0; 97; 98; 0; 120; 0; 97; 98; 100; 0].

Definition abc : basic_string_view := from_string 100 3.
Definition ab : basic_string_view := from_string 104 2.
Definition x : basic_string_view := from_string 107 1.
Definition abd : basic_string_view := from_string 109 3.

Example find_ab_in_abc : find text abc ab 0 = Some 0.
Proof. reflexivity. Qed.

Example find_x_in_abc : find text abc x 0 = Some npos.
Proof. reflexivity. Qed.

Example find_empty_at_end : find text abc default_view 3 = Some 3.
Proof. reflexivity. Qed.

Example find_empty_past_end : find text abc default_view 4 = Some npos.
Proof. reflexivity. Qed.

Example compare_abc_abd : compare text abc abd < 0.
Proof. reflexivity. Qed.

Example compare_abc_ab : compare text abc ab = 1.
Proof. reflexivity. Qed.

Example equal_abc_abc : equal text abc (from_ptr_len 100 3) = true.
Proof. reflexivity. Qed.

Example at_in_range : at_ text abc 2 = Returns 99.
Proof. reflexivity. Qed.

Example at_past_end : is_out_of_range (at_ text abc 3) = true.
Proof. reflexivity. Qed.

Example from_cstr_abc : from_cstr text 8 100 = Some abc.
Proof. reflexivity. Qed.

Example substr_tail : substr abc 1 npos = Returns (from_string 101 2).
Proof. reflexivity. Qed.

End Examples.

(** ** Representation and slicing *)

Module ViewFacts.
Import sv FlagFacts.

(** The helpers on the flag bit compose as setters, clearers and a test of
    one bit of a [size_t] should. *)
Theorem flag_helpers_round_trip (x : Z) (Hx : is_size_t x) :
  test_safederef_bit (set_safederef_bit x) = true /\
  test_safederef_bit (clear_safederef_bit x) = false /\
  clear_safederef_bit (set_safederef_bit x) = clear_safederef_bit x /\
  set_safederef_bit (clear_safederef_bit x) = set_safederef_bit x /\
  clear_safederef_bit x <= x <= set_safederef_bit x /\
  is_size_t (set_safederef_bit x) /\ is_size_t (clear_safederef_bit x).
Proof.
  pose proof (clear_size_t x Hx) as Hc.
  repeat split.
  - rewrite test_is_testbit. apply set_testbit.
  - rewrite test_is_testbit. apply clear_testbit. exact Hx.
  - apply clear_set. exact Hx.
  - rewrite (set_value (clear_safederef_bit x)), (clear_testbit x Hx).
    rewrite (clear_value x Hx), set_value.
    destruct (Z.testbit x 7); lia.
  - apply clear_le. exact Hx.
  - rewrite set_value. destruct (Z.testbit x 7); lia.
  - apply (set_size_t x Hx).
  - apply (set_size_t x Hx).
  - apply Hc.
  - apply Hc.
Qed.

Lemma flag_helpers_round_trip_witness :
  test_safederef_bit (set_safederef_bit 200) = true /\
  test_safederef_bit (clear_safederef_bit 200) = false /\
  clear_safederef_bit (set_safederef_bit 200) = clear_safederef_bit 200 /\
  set_safederef_bit (clear_safederef_bit 200) = set_safederef_bit 200 /\
  clear_safederef_bit 200 <= 200 <= set_safederef_bit 200 /\
  is_size_t (set_safederef_bit 200) /\ is_size_t (clear_safederef_bit 200).
Proof. apply (flag_helpers_round_trip 200). closed_range. Defined.

Lemma length_size_t (v : basic_string_view) :
  is_size_t (len_ v) -> is_size_t (length v).
Proof. intros Hv. apply clear_size_t. exact Hv. Qed.

Lemma length_unflagged (v : basic_string_view) :
  is_size_t (len_ v) -> test_safederef_bit (length v) = false.
Proof. intros Hv. rewrite test_is_testbit. apply clear_testbit. exact Hv. Qed.

Lemma min_unflagged (a b : Z) :
  test_safederef_bit a = false -> test_safederef_bit b = false ->
  test_safederef_bit (Z.min a b) = false.
Proof. intros Ha Hb. destruct (Z.min_spec a b) as [[_ ->] | [_ ->]]; assumption. Qed.

(** The length word is recovered from what [length()] and the flag report. *)
Theorem len_word_from_length_and_flag (v : basic_string_view)
  (Hv : is_size_t (len_ v)) :
  len_ v = (if witness v then set_safederef_bit (length v) else length v) /\
  0 <= length v <= len_ v /\ length v < npos.
Proof.
  pose proof (length_size_t v Hv) as Hl.
  split; [|split; [split; [apply Hl | apply clear_le; exact Hv]|]].
  - unfold witness, length. rewrite test_is_testbit.
    rewrite (set_value (clear_safederef_bit (len_ v))), (clear_testbit _ Hv).
    rewrite (clear_value _ Hv).
    destruct (Z.testbit (len_ v) 7); lia.
  - apply Search.length_below_npos. exact Hv.
Qed.

Lemma len_word_from_length_and_flag_witness :
  len_ (from_string 100 3)
  = (if witness (from_string 100 3)
     then set_safederef_bit (length (from_string 100 3))
     else length (from_string 100 3)) /\
  0 <= length (from_string 100 3) <= len_ (from_string 100 3) /\
  length (from_string 100 3) < npos.
Proof. apply (len_word_from_length_and_flag (from_string 100 3)). closed_range. Defined.

(** What [substr] returns for a position inside the view. *)
Lemma substr_shape (v : basic_string_view) (pos n : Z) :
  is_size_t (len_ v) -> 0 <= pos <= length v -> 0 <= n ->
  exists s,
    substr v pos n = Returns s /\
    str_ s = str_ v + pos /\
    is_size_t (len_ s) /\
    witness s = (witness v || test_safederef_bit (Z.min n (length v - pos))) /\
    length s = clear_safederef_bit (Z.min n (length v - pos)).
Proof.
  intros Hv Hpos Hn.
  pose proof (length_size_t v Hv) as Hl.
  assert (Hu : u64 (length v - pos) = length v - pos).
  { apply Z.mod_small. unfold is_size_t in Hl. lia. }
  assert (Hr : is_size_t (Z.min n (length v - pos))) by (unfold is_size_t in *; lia).
  unfold substr, witness. rewrite Hu.
  destruct (test_safederef_bit (len_ v)); eexists;
    (split; [reflexivity|]); (split; [reflexivity|]); simpl.
  - split; [apply set_size_t; exact Hr|]. split.
    + rewrite test_is_testbit. apply set_testbit.
    + unfold length at 1. simpl. apply clear_set. exact Hr.
  - split; [exact Hr|]. split; reflexivity.
Qed.

(** [substr(0, n)] with [n] at least the length, in particular
    [substr()] with its defaults, returns the view itself. *)
Theorem substr_whole (v : basic_string_view) (n : Z)
  (Hv : is_size_t (len_ v)) (Hn : length v <= n) :
  substr v 0 n = Returns v /\ substr v 0 npos = Returns v.
Proof.
  pose proof (length_size_t v Hv) as Hl.
  pose proof (Search.length_below_npos v Hv) as Hnp.
  assert (Hgen : forall k, length v <= k -> substr v 0 k = Returns v).
  { intros k Hk. unfold substr.
    assert (Hu : u64 (length v - 0) = length v).
    { rewrite Z.sub_0_r. apply Z.mod_small. exact Hl. }
    rewrite Hu, Z.min_r by exact Hk. rewrite Z.add_0_r.
    destruct v as [len str]. simpl in *.
    destruct (test_safederef_bit len) eqn:Hb; unfold from_ptr_len_safederef,
      from_ptr_len, length; simpl; f_equal; f_equal.
    - rewrite test_is_testbit in Hb.
      rewrite (set_value (clear_safederef_bit len)), (clear_testbit _ Hv).
      rewrite (clear_value _ Hv), Hb. lia.
    - apply clear_unflagged; assumption. }
  split; apply Hgen; [exact Hn | lia].
Qed.

Lemma substr_whole_witness :
  substr (from_string 100 3) 0 7 = Returns (from_string 100 3) /\
  substr (from_string 100 3) 0 npos = Returns (from_string 100 3).
Proof.
  apply (substr_whole (from_string 100 3) 7).
  - closed_range.
  - vm_compute. discriminate.
Defined.

(** A [substr] taken at a position inside the view stays inside the view: it
    starts at or after [begin()], ends at or before [end()], and is never
    longer than asked for. *)
Theorem substr_stays_inside (v : basic_string_view) (pos n : Z)
  (Hv : is_size_t (len_ v)) (Hpos : 0 <= pos <= length v) (Hn : 0 <= n) :
  exists s,
    substr v pos n = Returns s /\
    data v <= data s /\ end_ s <= end_ v /\
    0 <= length s <= n /\ length s <= length v - pos.
Proof.
  destruct (substr_shape v pos n Hv Hpos Hn) as (s & Es & Ep & Hs & _ & El).
  pose proof (length_size_t v Hv) as Hl.
  assert (Hr : is_size_t (Z.min n (length v - pos))) by (unfold is_size_t in *; lia).
  pose proof (clear_le _ Hr) as Hle.
  pose proof (clear_size_t _ Hr) as Hc.
  exists s. split; [exact Es|].
  unfold data, end_. rewrite Ep, El. unfold is_size_t in Hc. lia.
Qed.

Lemma substr_stays_inside_witness :
  exists s,
    substr (from_string 100 3) 1 5 = Returns s /\
    data (from_string 100 3) <= data s /\ end_ s <= end_ (from_string 100 3) /\
    0 <= length s <= 5 /\ length s <= length (from_string 100 3) - 1.
Proof.
  apply (substr_stays_inside (from_string 100 3) 1 5).
  - closed_range.
  - vm_compute. split; discriminate.
  - lia.
Defined.

(** [at(pos)] returns what [operator[]] reads when [pos < length()] and
    throws [out_of_range] otherwise; on a non-empty view its first and last
    positions give [front()] and [back()], and on an empty view every
    position throws. *)
Theorem at_checks_bounds (m : Mem) (v : basic_string_view) (pos : Z)
  (Hpos : 0 <= pos) :
  (pos < length v -> at_ m v pos = Returns (index m v pos)) /\
  (length v <= pos ->
   at_ m v pos = Throws (out_of_range "basic_string_view::at")) /\
  (0 < length v ->
   at_ m v 0 = Returns (front m v) /\
   at_ m v (length v - 1) = Returns (back m v)) /\
  (empty v = true ->
   at_ m v pos = Throws (out_of_range "basic_string_view::at")).
Proof.
  unfold at_, index, front, back, empty.
  repeat split.
  - intros H. destruct (Z.geb_spec pos (length v)); [lia | reflexivity].
  - intros H. destruct (Z.geb_spec pos (length v)); [reflexivity | lia].
  - destruct (Z.geb_spec 0 (length v)); [lia|]. now rewrite Z.add_0_r.
  - destruct (Z.geb_spec (length v - 1) (length v)); [lia|].
    f_equal. f_equal. lia.
  - intros He. apply Z.eqb_eq in He. rewrite He.
    destruct (Z.geb_spec pos 0); [reflexivity | lia].
Qed.

Lemma at_checks_bounds_witness :
  at_ ViewCore.abc_mem (from_string 100 3) 1
  = Returns (index ViewCore.abc_mem (from_string 100 3) 1) /\
  at_ ViewCore.abc_mem (from_string 100 3) 3
  = Throws (out_of_range "basic_string_view::at") /\
  at_ ViewCore.abc_mem default_view 0
  = Throws (out_of_range "basic_string_view::at").
Proof.
  destruct (at_checks_bounds ViewCore.abc_mem (from_string 100 3) 1
              ltac:(lia)) as (Hin & _).
  destruct (at_checks_bounds ViewCore.abc_mem (from_string 100 3) 3
              ltac:(lia)) as (_ & Hout & _).
  destruct (at_checks_bounds ViewCore.abc_mem default_view 0
              ltac:(lia)) as (_ & _ & _ & Hempty).
  split; [apply Hin; reflexivity|].
  split; [apply Hout; vm_compute; discriminate | apply Hempty; reflexivity].
Defined.

End ViewFacts.

(** ** Equality and ordering *)

Module OrderFacts.
Import sv FlagFacts.

Lemma s_compare_range (n1 n2 : Z) : int_min <= s_compare n1 n2 <= int_max.
Proof.
  unfold s_compare, int_min, int_max.
  destruct (Z.gtb_spec (to_ptrdiff (u64 (n1 - n2))) (2 ^ 31 - 1)); [lia|].
  destruct (Z.ltb_spec (to_ptrdiff (u64 (n1 - n2))) (- 2 ^ 31)); lia.
Qed.

Lemma s_compare_zero (n1 n2 : Z) :
  is_size_t n1 -> is_size_t n2 -> (s_compare n1 n2 = 0 <-> n1 = n2).
Proof.
  intros H1 H2. split; [|intros ->; apply Comparator.s_compare_same].
  unfold s_compare, to_ptrdiff, int_min, int_max, u64, is_size_t in *.
  change size_t_modulus with (2 ^ 64) in *.
  pose proof (Z.mod_pos_bound (n1 - n2) (2 ^ 64) ltac:(lia)) as Hm.
  intros H.
  assert (Hz : (n1 - n2) mod 2 ^ 64 = 0).
  { destruct (Z.ltb_spec ((n1 - n2) mod 2 ^ 64) (2 ^ 63)) as [Hlt | Hge].
    - destruct (Z.gtb_spec ((n1 - n2) mod 2 ^ 64) (2 ^ 31 - 1)); [lia|].
      destruct (Z.ltb_spec ((n1 - n2) mod 2 ^ 64) (- 2 ^ 31)); lia.
    - destruct (Z.gtb_spec ((n1 - n2) mod 2 ^ 64 - 2 ^ 64) (2 ^ 31 - 1)); [lia|].
      destruct (Z.ltb_spec ((n1 - n2) mod 2 ^ 64 - 2 ^ 64) (- 2 ^ 31)); lia. }
  apply Z.mod_divide in Hz; [|lia]. destruct Hz as [q Hq]. nia.
Qed.

(** [compare] always yields a value an [int] can hold. *)
Theorem compare_fits_int {T : char_traits} (m : Mem) (v w : basic_string_view) :
  int_min <= compare m v w <= int_max.
Proof.
  unfold compare.
  pose proof (Comparator.compare_n_range m
                (Z.to_nat (Z.min (length v) (length w))) (str_ v) (str_ w)) as Hr.
  fold (traits_type.compare m (str_ v) (str_ w) (Z.min (length v) (length w))) in Hr.
  destruct (Z.eqb_spec
              (traits_type.compare m (str_ v) (str_ w) (Z.min (length v) (length w))) 0).
  - apply s_compare_range.
  - unfold int_min, int_max. lia.
Qed.

(** [compare] yields 0 exactly for views of one length whose characters are
    pairwise [eq]. *)
Lemma compare_zero_iff {T : char_traits} (m : Mem) (x y : basic_string_view) :
  is_size_t (len_ x) -> is_size_t (len_ y) ->
  compare m x y = 0 <->
  length x = length y /\
  forall k, 0 <= k < length x -> eq (m (str_ x + k)) (m (str_ y + k)) = true.
Proof.
  intros Hx Hy.
  pose proof (ViewFacts.length_size_t x Hx) as Hlx.
  pose proof (ViewFacts.length_size_t y Hy) as Hly.
  unfold compare, traits_type.compare. split.
  - intros H.
    destruct (Z.eqb_spec (traits_type.compare_n m (str_ x) (str_ y)
                (Z.to_nat (Z.min (length x) (length y)))) 0) as [Hc | Hc];
      [|congruence].
    apply (proj1 (s_compare_zero _ _ Hlx Hly)) in H.
    split; [exact H|]. intros k Hk.
    apply (Comparator.compare_n_zero_inv m _ _ _ Hc).
    unfold is_size_t in *. lia.
  - intros [Hlen Hall].
    rewrite Comparator.compare_n_all_eq.
    + simpl. rewrite Hlen. apply Comparator.s_compare_same.
    + intros k Hk. apply Hall. unfold is_size_t in *. lia.
Qed.

Lemma equal_is_compare_zero {T : char_traits} (m : Mem) (x y : basic_string_view) :
  is_size_t (len_ x) -> is_size_t (len_ y) ->
  equal m x y = (compare m x y =? 0).
Proof.
  intros Hx Hy. unfold equal, size.
  destruct (Z.eqb_spec (compare m x y) 0) as [Hc | Hc].
  - apply (compare_zero_iff m x y Hx Hy) in Hc. destruct Hc as [-> _].
    now rewrite Z.eqb_refl.
  - apply andb_false_r.
Qed.

(** [operator==] holds exactly for views of one length whose characters are
    pairwise [eq], and it agrees with [compare(...) == 0]: the comparison of
    the sizes in front of it never changes the answer. *)
Theorem equal_iff_same_content {T : char_traits} (m : Mem)
  (x y : basic_string_view)
  (Hx : is_size_t (len_ x)) (Hy : is_size_t (len_ y)) :
  (equal m x y = true <->
   length x = length y /\
   forall k, 0 <= k < length x -> eq (m (str_ x + k)) (m (str_ y + k)) = true) /\
  equal m x y = (compare m x y =? 0) /\
  not_equal m x y = negb (compare m x y =? 0).
Proof.
  pose proof (compare_zero_iff m x y Hx Hy) as Hz.
  pose proof (equal_is_compare_zero m x y Hx Hy) as Heq.
  split; [|split; [exact Heq | unfold not_equal; now rewrite Heq]].
  rewrite Heq, Z.eqb_eq. exact Hz.
Qed.

Lemma equal_iff_same_content_witness :
  (equal ViewCore.abc_mem (from_string 100 3) (from_ptr_len 100 3) = true <->
   length (from_string 100 3) = length (from_ptr_len 100 3) /\
   forall k, 0 <= k < length (from_string 100 3) ->
     eq (ViewCore.abc_mem (str_ (from_string 100 3) + k))
        (ViewCore.abc_mem (str_ (from_ptr_len 100 3) + k)) = true) /\
  equal ViewCore.abc_mem (from_string 100 3) (from_ptr_len 100 3)
  = (compare ViewCore.abc_mem (from_string 100 3) (from_ptr_len 100 3) =? 0) /\
  not_equal ViewCore.abc_mem (from_string 100 3) (from_ptr_len 100 3)
  = negb (compare ViewCore.abc_mem (from_string 100 3) (from_ptr_len 100 3) =? 0).
Proof.
  apply (equal_iff_same_content ViewCore.abc_mem (from_string 100 3) (from_ptr_len 100 3));
    closed_range.
Defined.

Lemma s_compare_flip_sign (n1 n2 : Z) :
  is_size_t n1 -> is_size_t n2 -> - 2 ^ 63 < n1 - n2 < 2 ^ 63 ->
  (s_compare n1 n2 < 0 <-> 0 < s_compare n2 n1) /\
  (0 < s_compare n1 n2 <-> s_compare n2 n1 < 0).
Proof.
  intros H1 H2 Hd.
  rewrite !Comparator.s_compare_exact by (try assumption; lia).
  unfold Comparator.clamp_int, int_min, int_max. lia.
Qed.

(** The relational operators are consistent with one another on views whose
    lengths differ by less than 2^63: [x < y] is [y > x], [x <= y] is
    [y >= x], and exactly one of [x < y], [x == y], [x > y] holds. *)
Theorem operators_consistent {T : char_traits} {L : char_traits_laws T}
  (m : Mem) (x y : basic_string_view)
  (Hx : is_size_t (len_ x)) (Hy : is_size_t (len_ y))
  (Hd : - 2 ^ 63 < length x - length y < 2 ^ 63) :
  less m x y = greater m y x /\
  less_equal m x y = greater_equal m y x /\
  less_equal m x y = negb (greater m x y) /\
  greater_equal m x y = negb (less m x y) /\
  (less m x y = true /\ equal m x y = false /\ greater m x y = false \/
   less m x y = false /\ equal m x y = true /\ greater m x y = false \/
   less m x y = false /\ equal m x y = false /\ greater m x y = true).
Proof.
  pose proof (ViewFacts.length_size_t x Hx) as Hlx.
  pose proof (ViewFacts.length_size_t y Hy) as Hly.
  pose proof (equal_is_compare_zero m x y Hx Hy) as Heq.
  assert (Hsign : (compare m x y < 0 <-> 0 < compare m y x) /\
                  (0 < compare m x y <-> compare m y x < 0)).
  { unfold compare, traits_type.compare.
    rewrite (Z.min_comm (length y) (length x)).
    rewrite (@Comparator.compare_n_antisym T m L _ (str_ y) (str_ x)).
    set (c := traits_type.compare_n m (str_ x) (str_ y)
                (Z.to_nat (Z.min (length x) (length y)))).
    destruct (Z.eqb_spec c 0) as [Hc | Hc].
    - rewrite Hc. simpl. apply s_compare_flip_sign; assumption.
    - destruct (Z.eqb_spec (- c) 0); lia. }
  destruct Hsign as [Hneg Hpos].
  unfold less, greater, less_equal, greater_equal. rewrite Heq.
  destruct (Z.ltb_spec (compare m x y) 0), (Z.gtb_spec (compare m y x) 0),
    (Z.leb_spec (compare m x y) 0), (Z.geb_spec (compare m y x) 0),
    (Z.gtb_spec (compare m x y) 0), (Z.geb_spec (compare m x y) 0),
    (Z.eqb_spec (compare m x y) 0); simpl;
    repeat split; try reflexivity; try lia; try (exfalso; lia);
    try (left; repeat split; reflexivity || lia);
    try (right; left; repeat split; reflexivity || lia);
    try (right; right; repeat split; reflexivity || lia).
Qed.

Lemma operators_consistent_witness :
  less ViewCore.abc_mem (from_ptr_len 100 2) (from_string 100 3)
  = greater ViewCore.abc_mem (from_string 100 3) (from_ptr_len 100 2) /\
  less_equal ViewCore.abc_mem (from_ptr_len 100 2) (from_string 100 3)
  = greater_equal ViewCore.abc_mem (from_string 100 3) (from_ptr_len 100 2).
Proof.
  destruct (@operators_consistent std_char_traits std_char_traits_laws
              ViewCore.abc_mem (from_ptr_len 100 2) (from_string 100 3)
              ltac:(closed_range) ltac:(closed_range))
    as (H1 & H2 & _).
  - vm_compute. split; reflexivity.
  - split; [exact H1 | exact H2].
Defined.

End OrderFacts.


(** ** Scans for characters and scans from the back *)

Module ScanFacts.
Import sv FlagFacts.

(** [r] is the least index in [lo, hi) with [P], or [npos] when there is
    none. *)
Definition least_from (P : Z -> Prop) (lo hi r : Z) : Prop :=
  (lo <= r < hi /\ P r /\ forall i, lo <= i < r -> ~ P i)
  \/ (r = npos /\ forall i, lo <= i < hi -> ~ P i).

(** [r] is the greatest index in [0, hi] with [P], or [npos] when there is
    none. *)
Definition greatest_upto (P : Z -> Prop) (hi r : Z) : Prop :=
  (0 <= r <= hi /\ P r /\ forall i, r < i <= hi -> ~ P i)
  \/ (r = npos /\ forall i, 0 <= i <= hi -> ~ P i).

Lemma least_from_iff (P Q : Z -> Prop) (lo hi r : Z) :
  (forall i, P i <-> Q i) -> least_from P lo hi r -> least_from Q lo hi r.
Proof.
  intros HPQ [(Hr & HP & Hmin) | (Hr & Hnone)]; [left | right].
  - split; [exact Hr|]. split; [apply HPQ; exact HP|].
    intros i Hi HQ. apply (Hmin i Hi). apply HPQ. exact HQ.
  - split; [exact Hr|]. intros i Hi HQ. apply (Hnone i Hi). apply HPQ. exact HQ.
Qed.

Lemma greatest_upto_iff (P Q : Z -> Prop) (hi r : Z) :
  (forall i, P i <-> Q i) -> greatest_upto P hi r -> greatest_upto Q hi r.
Proof.
  intros HPQ [(Hr & HP & Hmax) | (Hr & Hnone)]; [left | right].
  - split; [exact Hr|]. split; [apply HPQ; exact HP|].
    intros i Hi HQ. apply (Hmax i Hi). apply HPQ. exact HQ.
  - split; [exact Hr|]. intros i Hi HQ. apply (Hnone i Hi). apply HPQ. exact HQ.
Qed.

Lemma least_from_unique (P : Z -> Prop) (lo hi r1 r2 : Z) :
  hi <= npos -> least_from P lo hi r1 -> least_from P lo hi r2 -> r1 = r2.
Proof.
  intros Hhi [(H1 & P1 & M1) | (E1 & N1)] [(H2 & P2 & M2) | (E2 & N2)].
  - destruct (Z.lt_trichotomy r1 r2) as [Hlt | [Heq | Hgt]]; [|exact Heq|].
    + exfalso. apply (M2 r1); [lia | exact P1].
    + exfalso. apply (M1 r2); [lia | exact P2].
  - exfalso. apply (N2 r1); [lia | exact P1].
  - exfalso. apply (N1 r2); [lia | exact P2].
  - congruence.
Qed.

Lemma greatest_upto_unique (P : Z -> Prop) (hi r1 r2 : Z) :
  hi < npos -> greatest_upto P hi r1 -> greatest_upto P hi r2 -> r1 = r2.
Proof.
  intros Hhi [(H1 & P1 & M1) | (E1 & N1)] [(H2 & P2 & M2) | (E2 & N2)].
  - destruct (Z.lt_trichotomy r1 r2) as [Hlt | [Heq | Hgt]]; [|exact Heq|].
    + exfalso. apply (M1 r2); [lia | exact P2].
    + exfalso. apply (M2 r1); [lia | exact P1].
  - exfalso. apply (N2 r1); [lia | exact P1].
  - exfalso. apply (N1 r2); [lia | exact P2].
  - congruence.
Qed.

Lemma least_from_bound (P : Z -> Prop) (lo hi r : Z) :
  least_from P lo hi r -> r = npos \/ lo <= r < hi.
Proof. intros [(Hr & _) | (Hr & _)]; [right | left]; assumption. Qed.

Lemma greatest_upto_bound (P : Z -> Prop) (hi r : Z) :
  greatest_upto P hi r -> r = npos \/ 0 <= r <= hi.
Proof. intros [(Hr & _) | (Hr & _)]; [right | left]; assumption. Qed.

(** A forward scan for the first index that passes [test]. *)
Fixpoint fwd_scan (test : Z -> bool) (len : Z) (fuel : nat) (pos : Z) : option Z :=
  match fuel with
  | O => None
  | S fuel' =>
      if pos <? len then
        if test pos then Some pos else fwd_scan test len fuel' (u64 (pos + 1))
      else Some npos
  end.

(** A backward scan for the last index that passes [test]. *)
Fixpoint bwd_scan (test : Z -> bool) (fuel : nat) (size : Z) : option Z :=
  match fuel with
  | O => None
  | S fuel' =>
      if test size then Some size
      else if size >? 0 then bwd_scan test fuel' (u64 (size - 1))
      else Some npos
  end.

Lemma fwd_scan_spec (test : Z -> bool) (len : Z) :
  is_size_t len ->
  forall (fuel : nat) (pos : Z),
    0 <= pos -> len - pos < Z.of_nat fuel -> 0 < Z.of_nat fuel ->
    exists r, fwd_scan test len fuel pos = Some r /\
              least_from (fun i => test i = true) pos len r.
Proof.
  intros Hlen. induction fuel as [|fuel IH]; intros pos Hpos Hfuel Hnz; [lia|].
  simpl. destruct (Z.ltb_spec pos len) as [Hin | Hout].
  - destruct (test pos) eqn:Ht.
    + exists pos. split; [reflexivity|]. left.
      split; [lia|]. split; [exact Ht|]. intros i Hi. lia.
    + assert (Hnext : u64 (pos + 1) = pos + 1).
      { apply Z.mod_small. unfold is_size_t in Hlen. lia. }
      rewrite Hnext. destruct (IH (pos + 1)) as (r & Er & Hr); try lia.
      exists r. split; [exact Er|].
      destruct Hr as [(Hrange & Hp & Hmin) | (Hnp & Hnone)]; [left | right].
      * split; [lia|]. split; [exact Hp|]. intros i Hi.
        destruct (Z.eq_dec i pos) as [-> | Hne]; [congruence | apply Hmin; lia].
      * split; [exact Hnp|]. intros i Hi.
        destruct (Z.eq_dec i pos) as [-> | Hne]; [congruence | apply Hnone; lia].
  - exists npos. split; [reflexivity|]. right. split; [reflexivity|].
    intros i Hi. lia.
Qed.

Lemma bwd_scan_spec (test : Z -> bool) :
  forall (fuel : nat) (size : Z),
    is_size_t size -> size < Z.of_nat fuel ->
    exists r, bwd_scan test fuel size = Some r /\
              greatest_upto (fun i => test i = true) size r.
Proof.
  induction fuel as [|fuel IH]; intros size Hsize Hfuel;
    [unfold is_size_t in Hsize; lia|].
  simpl. destruct (test size) eqn:Ht.
  - exists size. split; [reflexivity|]. left.
    unfold is_size_t in Hsize. split; [lia|]. split; [exact Ht|]. intros i Hi. lia.
  - destruct (Z.gtb_spec size 0) as [Hgt | Hle].
    + assert (Hprev : u64 (size - 1) = size - 1).
      { apply Z.mod_small. unfold is_size_t in Hsize. lia. }
      rewrite Hprev.
      destruct (IH (size - 1)) as (r & Er & Hr);
        [unfold is_size_t in *; lia | lia |].
      exists r. split; [exact Er|].
      destruct Hr as [(Hrange & Hp & Hmax) | (Hnp & Hnone)]; [left | right].
      * split; [lia|]. split; [exact Hp|]. intros i Hi.
        destruct (Z.eq_dec i size) as [-> | Hne]; [congruence | apply Hmax; lia].
      * split; [exact Hnp|]. intros i Hi.
        destruct (Z.eq_dec i size) as [-> | Hne]; [congruence | apply Hnone; lia].
    + exists npos. split; [reflexivity|]. right. split; [reflexivity|].
      intros i Hi. unfold is_size_t in Hsize.
      assert (i = size) by lia. subst i. congruence.
Qed.

Section Traits.
Context {T : char_traits}.
Variable m : Mem.

(** The character [c] is one of the [n] characters at [str]. *)
Definition in_set (str : pointer) (n : Z) (c : CharT) : Prop :=
  exists k, 0 <= k < n /\ eq (m (str + k)) c = true.

(** Whether [Traits::find] yields a pointer that is not null. *)
Definition member (str : pointer) (n : Z) (c : CharT) : bool :=
  match traits_type.find m str n c with Some _ => true | None => false end.

Lemma find_n_some (n : nat) : forall s a p,
  traits_type.find_n m s n a = Some p ->
  exists k, 0 <= k < Z.of_nat n /\ p = s + k /\ eq (m (s + k)) a = true /\
            forall j, 0 <= j < k -> eq (m (s + j)) a = false.
Proof.
  induction n as [|n IH]; intros s a p H; simpl in H; [discriminate|].
  destruct (eq (m s) a) eqn:E.
  - injection H as <-. exists 0. rewrite Z.add_0_r.
    split; [lia|]. split; [reflexivity|]. split; [exact E|]. intros j Hj. lia.
  - destruct (IH _ _ _ H) as (k & Hk & Hp & He & Hbefore).
    exists (k + 1). split; [lia|].
    replace (s + (k + 1)) with (s + 1 + k) by lia.
    split; [exact Hp|]. split; [exact He|].
    intros j Hj. destruct (Z.eq_dec j 0) as [-> | Hj0].
    + now rewrite Z.add_0_r.
    + replace (s + j) with (s + 1 + (j - 1)) by lia. apply Hbefore. lia.
Qed.

Lemma find_n_none (n : nat) : forall s a,
  traits_type.find_n m s n a = None ->
  forall k, 0 <= k < Z.of_nat n -> eq (m (s + k)) a = false.
Proof.
  induction n as [|n IH]; intros s a H k Hk; [lia|]. simpl in H.
  destruct (eq (m s) a) eqn:E; [discriminate|].
  destruct (Z.eq_dec k 0) as [-> | Hk0].
  - now rewrite Z.add_0_r.
  - replace (s + k) with (s + 1 + (k - 1)) by lia. apply (IH _ _ H). lia.
Qed.

Lemma member_iff (str : pointer) (n : Z) (c : CharT) :
  member str n c = true <-> in_set str n c.
Proof.
  unfold member, in_set, traits_type.find. split.
  - destruct (traits_type.find_n m str (Z.to_nat n) c) as [p|] eqn:E; [|discriminate].
    intros _. destruct (find_n_some _ _ _ _ E) as (k & Hk & _ & He & _).
    exists k. split; [lia | exact He].
  - intros (k & Hk & He).
    destruct (traits_type.find_n m str (Z.to_nat n) c) as [p|] eqn:E; [reflexivity|].
    rewrite (find_n_none _ _ _ E k) in He by lia. discriminate.
Qed.

Lemma not_member_iff (str : pointer) (n : Z) (c : CharT) :
  negb (member str n c) = true <-> ~ in_set str n c.
Proof.
  rewrite negb_true_iff, <- member_iff. destruct (member str n c); split;
    congruence.
Qed.

(** Each loop of the header is one of the two scans. *)

Lemma find_first_of_loop_scan (v : basic_string_view) (str : pointer) (n : Z) :
  n <> 0 ->
  forall fuel pos,
    find_first_of_loop m v str n fuel pos
    = fwd_scan (fun i => member str n (m (str_ v + i))) (length v) fuel pos.
Proof.
  intros Hn. induction fuel as [|fuel IH]; intros pos; simpl; [reflexivity|].
  destruct (Z.eqb_spec n 0); [contradiction|]. simpl.
  destruct (pos <? length v); [|reflexivity].
  unfold member.
  destruct (traits_type.find m str n (m (str_ v + pos))); [reflexivity | apply IH].
Qed.

Lemma find_first_not_of_loop_scan (v : basic_string_view) (str : pointer) (n : Z) :
  forall fuel pos,
    find_first_not_of_loop m v str n fuel pos
    = fwd_scan (fun i => negb (member str n (m (str_ v + i)))) (length v) fuel pos.
Proof.
  induction fuel as [|fuel IH]; intros pos; simpl; [reflexivity|].
  destruct (pos <? length v); [|reflexivity].
  unfold member.
  destruct (traits_type.find m str n (m (str_ v + pos))); simpl;
    [apply IH | reflexivity].
Qed.

Lemma find_first_not_of_char_loop_scan (v : basic_string_view) (c : CharT) :
  forall fuel pos,
    find_first_not_of_char_loop m v c fuel pos
    = fwd_scan (fun i => negb (eq (m (str_ v + i)) c)) (length v) fuel pos.
Proof.
  induction fuel as [|fuel IH]; intros pos; simpl; [reflexivity|].
  destruct (pos <? length v); [|reflexivity].
  destruct (eq (m (str_ v + pos)) c); simpl; [apply IH | reflexivity].
Qed.

Lemma rfind_loop_scan (v : basic_string_view) (str : pointer) (n : Z) :
  forall fuel pos,
    rfind_loop m v str n fuel pos
    = bwd_scan (fun i => traits_type.compare m (str_ v + i) str n =? 0) fuel pos.
Proof.
  induction fuel as [|fuel IH]; intros pos; simpl; [reflexivity|].
  destruct (traits_type.compare m (str_ v + pos) str n =? 0); [reflexivity|].
  destruct (pos >? 0); [apply IH | reflexivity].
Qed.

Lemma find_last_of_loop_scan (v : basic_string_view) (str : pointer) (n : Z) :
  forall fuel size, 0 <= size ->
    find_last_of_loop m v str n fuel size
    = bwd_scan (fun i => member str n (m (str_ v + i))) fuel size.
Proof.
  induction fuel as [|fuel IH]; intros size Hs; simpl; [reflexivity|].
  unfold member at 1.
  destruct (traits_type.find m str n (m (str_ v + size))); [reflexivity|].
  destruct (Z.eqb_spec size 0) as [-> | Hne]; simpl; [reflexivity|].
  destruct (Z.gtb_spec size 0); [|lia].
  apply IH. apply Z.mod_pos_bound. reflexivity.
Qed.

Lemma find_last_not_of_loop_scan (v : basic_string_view) (str : pointer) (n : Z) :
  forall fuel size, 0 <= size ->
    find_last_not_of_loop m v str n fuel size
    = bwd_scan (fun i => negb (member str n (m (str_ v + i)))) fuel size.
Proof.
  induction fuel as [|fuel IH]; intros size Hs; simpl; [reflexivity|].
  unfold member at 1.
  destruct (traits_type.find m str n (m (str_ v + size))); simpl; [|reflexivity].
  destruct (Z.eqb_spec size 0) as [-> | Hne]; simpl; [reflexivity|].
  destruct (Z.gtb_spec size 0); [|lia].
  apply IH. apply Z.mod_pos_bound. reflexivity.
Qed.

Lemma find_last_not_of_char_loop_scan (v : basic_string_view) (c : CharT) :
  forall fuel size, 0 <= size ->
    find_last_not_of_char_loop m v c fuel size
    = bwd_scan (fun i => negb (eq (m (str_ v + i)) c)) fuel size.
Proof.
  induction fuel as [|fuel IH]; intros size Hs; simpl; [reflexivity|].
  destruct (eq (m (str_ v + size)) c); simpl; [|reflexivity].
  destruct (Z.eqb_spec size 0) as [-> | Hne]; simpl; [reflexivity|].
  destruct (Z.gtb_spec size 0); [|lia].
  apply IH. apply Z.mod_pos_bound. reflexivity.
Qed.

(** The index a backward scan starts from: [min(length() - 1, pos)]. *)
Lemma last_index (v : basic_string_view) (pos : Z) :
  is_size_t (len_ v) -> 0 <= pos -> length v <> 0 ->
  (if u64 (length v - 1) >? pos then pos else u64 (length v - 1))
  = Z.min pos (length v - 1) /\
  is_size_t (Z.min pos (length v - 1)).
Proof.
  intros Hv Hpos Hne.
  pose proof (ViewFacts.length_size_t v Hv) as Hl.
  assert (Hu : u64 (length v - 1) = length v - 1).
  { apply Z.mod_small. unfold is_size_t in Hl. lia. }
  rewrite Hu. unfold is_size_t in *.
  destruct (Z.gtb_spec (length v - 1) pos); split; lia.
Qed.
End Traits.

Lemma find_char_scan {T : char_traits} (m : Mem) (v : basic_string_view)
  (c : CharT) (pos : Z)
  (Hv : is_size_t (len_ v)) (Hpos : 0 <= pos) :
  least_from (fun i => eq (m (str_ v + i)) c = true) pos (length v)
             (find_char m v c pos).
Proof.
  pose proof (ViewFacts.length_size_t v Hv) as Hl.
  unfold find_char. destruct (Z.ltb_spec pos (length v)) as [Hin | Hout].
  - assert (Hu : u64 (length v - pos) = length v - pos).
    { apply Z.mod_small. unfold is_size_t in Hl. lia. }
    rewrite Hu. unfold traits_type.find.
    destruct (traits_type.find_n m (str_ v + pos) (Z.to_nat (length v - pos)) c)
      as [p|] eqn:E.
    + destruct (find_n_some m _ _ _ _ E) as (k & Hk & -> & He & Hbefore).
      replace (str_ v + pos + k - str_ v) with (pos + k) by lia.
      assert (Hr : u64 (pos + k) = pos + k).
      { apply Z.mod_small. unfold is_size_t in Hl. lia. }
      rewrite Hr. left. split; [lia|]. split.
      * now rewrite Z.add_assoc.
      * intros i Hi. replace (str_ v + i) with (str_ v + pos + (i - pos)) by lia.
        rewrite Hbefore by lia. discriminate.
    + right. split; [reflexivity|]. intros i Hi.
      replace (str_ v + i) with (str_ v + pos + (i - pos)) by lia.
      rewrite (find_n_none m _ _ _ E) by lia. discriminate.
  - right. split; [reflexivity|]. intros i Hi. lia.
Qed.

(** [find(c, pos)] is the least index at or after [pos] whose character is
    [eq] to [c], and [npos] when there is none (in particular when
    [pos >= length()]). *)
Theorem find_char_least {T : char_traits} (m : Mem) (v : basic_string_view)
  (c : CharT) (pos : Z)
  (Hv : is_size_t (len_ v)) (Hpos : 0 <= pos) :
  least_from (fun i => eq (m (str_ v + i)) c = true) pos (length v)
             (find_char m v c pos) /\
  (find_char m v c pos = npos \/ pos <= find_char m v c pos < length v) /\
  (length v <= pos -> find_char m v c pos = npos) /\
  find_first_of_char m v c pos = find_char m v c pos.
Proof.
  pose proof (find_char_scan m v c pos Hv Hpos) as Hscan.
  split; [exact Hscan|]. split; [exact (least_from_bound _ _ _ _ Hscan)|].
  split; [|reflexivity].
  intros Hout. destruct (least_from_bound _ _ _ _ Hscan) as [E | Hin];
    [exact E | lia].
Qed.

Lemma find_char_least_witness :
  least_from (fun i => eq (ViewCore.abc_mem (str_ (from_string 100 3) + i)) 98 = true)
             0 (length (from_string 100 3))
             (find_char ViewCore.abc_mem (from_string 100 3) 98 0) /\
  find_char ViewCore.abc_mem (from_string 100 3) 98 7 = npos.
Proof.
  destruct (@find_char_least std_char_traits ViewCore.abc_mem (from_string 100 3) 98 0
              ltac:(closed_range) ltac:(lia)) as (Hleast & _).
  destruct (@find_char_least std_char_traits ViewCore.abc_mem (from_string 100 3) 98 7
              ltac:(closed_range) ltac:(lia)) as (_ & _ & Hout & _).
  split; [exact Hleast|]. apply Hout. vm_compute. discriminate.
Defined.

Lemma find_first_of_scan {T : char_traits} (m : Mem)
  (v set : basic_string_view) (pos : Z)
  (Hv : is_size_t (len_ v)) (Hs : is_size_t (len_ set)) (Hpos : 0 <= pos) :
  exists r,
    find_first_of m v set pos = Some r /\
    least_from (fun i => in_set m (str_ set) (length set) (m (str_ v + i)))
               pos (length v) r /\
    (length set = 0 -> r = npos).
Proof.
  pose proof (ViewFacts.length_size_t v Hv) as Hl.
  unfold find_first_of, find_first_of_buf.
  destruct (Z.eq_dec (length set) 0) as [Hz | Hnz].
  - exists npos. rewrite Hz. split; [reflexivity|]. split; [|reflexivity].
    right. split; [reflexivity|]. intros i Hi (k & Hk & _). lia.
  - rewrite (find_first_of_loop_scan m v _ _ Hnz).
    destruct (fwd_scan_spec (fun i => member m (str_ set) (length set) (m (str_ v + i)))
                (length v) Hl (scan_fuel v pos) pos Hpos) as (r & Er & Hr);
      [unfold scan_fuel; lia | unfold scan_fuel; lia |].
    exists r. split; [exact Er|]. split; [|contradiction].
    apply (least_from_iff _ _ _ _ _ (fun i => member_iff m _ _ _)). exact Hr.
Qed.

(** [find_first_of(set, pos)] is the least index at or after [pos] whose
    character is one of the characters of [set], and [npos] when there is
    none; for the empty set it is [npos]. *)
Theorem find_first_of_least {T : char_traits} (m : Mem)
  (v set : basic_string_view) (pos : Z)
  (Hv : is_size_t (len_ v)) (Hs : is_size_t (len_ set)) (Hpos : 0 <= pos) :
  exists r,
    find_first_of m v set pos = Some r /\
    least_from (fun i => in_set m (str_ set) (length set) (m (str_ v + i)))
               pos (length v) r /\
    (length set = 0 -> r = npos) /\
    (length v <= pos -> r = npos).
Proof.
  destruct (find_first_of_scan m v set pos Hv Hs Hpos) as (r & Er & Hleast & Hempty).
  exists r. split; [exact Er|]. split; [exact Hleast|]. split; [exact Hempty|].
  intros Hout. destruct (least_from_bound _ _ _ _ Hleast) as [E | Hin];
    [exact E | lia].
Qed.

Lemma find_first_of_least_witness :
  exists r,
    find_first_of ViewCore.abc_mem (from_string 100 3) (from_ptr_len 101 2) 0 = Some r /\
    least_from (fun i => in_set ViewCore.abc_mem (str_ (from_ptr_len 101 2))
                           (length (from_ptr_len 101 2))
                           (ViewCore.abc_mem (str_ (from_string 100 3) + i)))
               0 (length (from_string 100 3)) r /\
    (length (from_ptr_len 101 2) = 0 -> r = npos) /\
    (length (from_string 100 3) <= 0 -> r = npos).
Proof.
  apply (@find_first_of_least std_char_traits ViewCore.abc_mem
           (from_string 100 3) (from_ptr_len 101 2) 0).
  - closed_range.
  - closed_range.
  - lia.
Defined.

(** [find_first_not_of(set, pos)] is the least index at or after [pos] whose
    character is none of the characters of [set], and [npos] when there is
    none. *)
Theorem find_first_not_of_least {T : char_traits} (m : Mem)
  (v set : basic_string_view) (pos : Z)
  (Hv : is_size_t (len_ v)) (Hpos : 0 <= pos) :
  exists r,
    find_first_not_of m v set pos = Some r /\
    least_from (fun i => ~ in_set m (str_ set) (length set) (m (str_ v + i)))
               pos (length v) r.
Proof.
  pose proof (ViewFacts.length_size_t v Hv) as Hl.
  unfold find_first_not_of, find_first_not_of_buf.
  rewrite find_first_not_of_loop_scan.
  destruct (fwd_scan_spec
              (fun i => negb (member m (str_ set) (length set) (m (str_ v + i))))
              (length v) Hl (scan_fuel v pos) pos Hpos) as (r & Er & Hr);
    [unfold scan_fuel; lia | unfold scan_fuel; lia |].
  exists r. split; [exact Er|].
  apply (least_from_iff _ _ _ _ _ (fun i => not_member_iff m _ _ _)). exact Hr.
Qed.

Lemma find_first_not_of_least_witness :
  exists r,
    find_first_not_of ViewCore.abc_mem (from_string 100 3) (from_ptr_len 100 2) 0
    = Some r /\
    least_from (fun i => ~ in_set ViewCore.abc_mem (str_ (from_ptr_len 100 2))
                             (length (from_ptr_len 100 2))
                             (ViewCore.abc_mem (str_ (from_string 100 3) + i)))
               0 (length (from_string 100 3)) r.
Proof.
  apply (@find_first_not_of_least std_char_traits ViewCore.abc_mem
           (from_string 100 3) (from_ptr_len 100 2) 0).
  - closed_range.
  - lia.
Defined.

(** [find_first_not_of(c, pos)] is the least index at or after [pos] whose
    character is not [eq] to [c], and [npos] when there is none. *)
Theorem find_first_not_of_char_least {T : char_traits} (m : Mem)
  (v : basic_string_view) (c : CharT) (pos : Z)
  (Hv : is_size_t (len_ v)) (Hpos : 0 <= pos) :
  exists r,
    find_first_not_of_char m v c pos = Some r /\
    least_from (fun i => eq (m (str_ v + i)) c = false) pos (length v) r.
Proof.
  pose proof (ViewFacts.length_size_t v Hv) as Hl.
  unfold find_first_not_of_char. rewrite find_first_not_of_char_loop_scan.
  destruct (fwd_scan_spec (fun i => negb (eq (m (str_ v + i)) c))
              (length v) Hl (scan_fuel v pos) pos Hpos) as (r & Er & Hr);
    [unfold scan_fuel; lia | unfold scan_fuel; lia |].
  exists r. split; [exact Er|].
  apply (least_from_iff _ _ _ _ _ (fun i => negb_true_iff _)). exact Hr.
Qed.

Lemma find_first_not_of_char_least_witness :
  exists r,
    find_first_not_of_char ViewCore.abc_mem (from_string 100 3) 97 0 = Some r /\
    least_from (fun i => eq (ViewCore.abc_mem (str_ (from_string 100 3) + i)) 97 = false)
               0 (length (from_string 100 3)) r.
Proof.
  apply (@find_first_not_of_char_least std_char_traits ViewCore.abc_mem
           (from_string 100 3) 97 0).
  - closed_range.
  - lia.
Defined.

(** [find_last_of(set, pos)] is the greatest index at or before [pos] (and
    inside the view) whose character is one of the characters of [set], and
    [npos] when there is none, in particular on an empty view or for an
    empty set. *)
Theorem find_last_of_greatest {T : char_traits} (m : Mem)
  (v set : basic_string_view) (pos : Z)
  (Hv : is_size_t (len_ v)) (Hpos : 0 <= pos) :
  exists r,
    find_last_of m v set pos = Some r /\
    greatest_upto (fun i => in_set m (str_ set) (length set) (m (str_ v + i)))
                  (Z.min pos (length v - 1)) r.
Proof.
  pose proof (ViewFacts.length_size_t v Hv) as Hl.
  unfold find_last_of, find_last_of_buf, size.
  destruct (Z.eqb_spec (length v) 0) as [Hz | Hnz]; cbn [negb andb].
  - exists npos. split; [reflexivity|]. right. split; [reflexivity|].
    intros i Hi. lia.
  - destruct (Z.eqb_spec (length set) 0) as [Hsz | Hsnz]; cbn [negb andb].
    + exists npos. split; [reflexivity|]. right. split; [reflexivity|].
      intros i Hi (k & Hk & _). lia.
    + destruct (last_index v pos Hv Hpos Hnz) as [-> Hsize].
      rewrite find_last_of_loop_scan by (unfold is_size_t in Hsize; lia).
      destruct (bwd_scan_spec
                  (fun i => member m (str_ set) (length set) (m (str_ v + i)))
                  (S (Z.to_nat (Z.min pos (length v - 1)))) _ Hsize)
        as (r & Er & Hr); [lia|].
      exists r. split; [exact Er|].
      apply (greatest_upto_iff _ _ _ _ (fun i => member_iff m _ _ _)). exact Hr.
Qed.

Lemma find_last_of_greatest_witness :
  exists r,
    find_last_of ViewCore.abc_mem (from_string 100 3) (from_ptr_len 100 2) npos
    = Some r /\
    greatest_upto (fun i => in_set ViewCore.abc_mem (str_ (from_ptr_len 100 2))
                              (length (from_ptr_len 100 2))
                              (ViewCore.abc_mem (str_ (from_string 100 3) + i)))
                  (Z.min npos (length (from_string 100 3) - 1)) r.
Proof.
  apply (@find_last_of_greatest std_char_traits ViewCore.abc_mem
           (from_string 100 3) (from_ptr_len 100 2) npos).
  - closed_range.
  - vm_compute. discriminate.
Defined.

(** [find_last_not_of(set, pos)] is the greatest index at or before [pos]
    (and inside the view) whose character is none of the characters of
    [set], and [npos] when there is none. *)
Theorem find_last_not_of_greatest {T : char_traits} (m : Mem)
  (v set : basic_string_view) (pos : Z)
  (Hv : is_size_t (len_ v)) (Hpos : 0 <= pos) :
  exists r,
    find_last_not_of m v set pos = Some r /\
    greatest_upto (fun i => ~ in_set m (str_ set) (length set) (m (str_ v + i)))
                  (Z.min pos (length v - 1)) r.
Proof.
  pose proof (ViewFacts.length_size_t v Hv) as Hl.
  unfold find_last_not_of, find_last_not_of_buf.
  destruct (Z.eqb_spec (length v) 0) as [Hz | Hnz]; cbn [negb andb].
  - exists npos. split; [reflexivity|]. right. split; [reflexivity|].
    intros i Hi. lia.
  - destruct (last_index v pos Hv Hpos Hnz) as [-> Hsize].
    rewrite find_last_not_of_loop_scan by (unfold is_size_t in Hsize; lia).
    destruct (bwd_scan_spec
                (fun i => negb (member m (str_ set) (length set) (m (str_ v + i))))
                (S (Z.to_nat (Z.min pos (length v - 1)))) _ Hsize)
      as (r & Er & Hr); [lia|].
    exists r. split; [exact Er|].
    apply (greatest_upto_iff _ _ _ _ (fun i => not_member_iff m _ _ _)). exact Hr.
Qed.

Lemma find_last_not_of_greatest_witness :
  exists r,
    find_last_not_of ViewCore.abc_mem (from_string 100 3) (from_ptr_len 101 2) npos
    = Some r /\
    greatest_upto (fun i => ~ in_set ViewCore.abc_mem (str_ (from_ptr_len 101 2))
                                (length (from_ptr_len 101 2))
                                (ViewCore.abc_mem (str_ (from_string 100 3) + i)))
                  (Z.min npos (length (from_string 100 3) - 1)) r.
Proof.
  apply (@find_last_not_of_greatest std_char_traits ViewCore.abc_mem
           (from_string 100 3) (from_ptr_len 101 2) npos).
  - closed_range.
  - vm_compute. discriminate.
Defined.

(** [find_last_not_of(c, pos)] is the greatest index at or before [pos] (and
    inside the view) whose character is not [eq] to [c], and [npos] when
    there is none. *)
Theorem find_last_not_of_char_greatest {T : char_traits} (m : Mem)
  (v : basic_string_view) (c : CharT) (pos : Z)
  (Hv : is_size_t (len_ v)) (Hpos : 0 <= pos) :
  exists r,
    find_last_not_of_char m v c pos = Some r /\
    greatest_upto (fun i => eq (m (str_ v + i)) c = false)
                  (Z.min pos (length v - 1)) r.
Proof.
  pose proof (ViewFacts.length_size_t v Hv) as Hl.
  unfold find_last_not_of_char.
  destruct (Z.eqb_spec (length v) 0) as [Hz | Hnz]; cbn [negb andb].
  - exists npos. split; [reflexivity|]. right. split; [reflexivity|].
    intros i Hi. lia.
  - destruct (last_index v pos Hv Hpos Hnz) as [-> Hsize].
    rewrite find_last_not_of_char_loop_scan by (unfold is_size_t in Hsize; lia).
    destruct (bwd_scan_spec (fun i => negb (eq (m (str_ v + i)) c))
                (S (Z.to_nat (Z.min pos (length v - 1)))) _ Hsize)
      as (r & Er & Hr); [lia|].
    exists r. split; [exact Er|].
    apply (greatest_upto_iff _ _ _ _ (fun i => negb_true_iff _)). exact Hr.
Qed.

Lemma find_last_not_of_char_greatest_witness :
  exists r,
    find_last_not_of_char ViewCore.abc_mem (from_string 100 3) 99 npos = Some r /\
    greatest_upto (fun i => eq (ViewCore.abc_mem (str_ (from_string 100 3) + i)) 99 = false)
                  (Z.min npos (length (from_string 100 3) - 1)) r.
Proof.
  apply (@find_last_not_of_char_greatest std_char_traits ViewCore.abc_mem
           (from_string 100 3) 99 npos).
  - closed_range.
  - vm_compute. discriminate.
Defined.

End ScanFacts.

(** ** Searching from the back, and how the searches agree *)

Module BackSearch.
Import sv FlagFacts ScanFacts.

Lemma compare_zero_same_chars {T : char_traits} (m : Mem)
  (v : basic_string_view) (str : pointer) (n i : Z) :
  0 <= n ->
  (traits_type.compare m (str_ v + i) str n =? 0) = true
  <-> Search.same_chars m v str n i.
Proof.
  intros Hn. unfold traits_type.compare, Search.same_chars. rewrite Z.eqb_eq. split.
  - intros H k Hk. apply (Comparator.compare_n_zero_inv m _ _ _ H). lia.
  - intros H. apply Comparator.compare_n_all_eq. intros k Hk. apply H. lia.
Qed.

(** What [rfind(p, pos)] returns. *)
Lemma rfind_scan {T : char_traits} (m : Mem) (v p : basic_string_view) (pos : Z) :
  is_size_t (len_ v) -> is_size_t (len_ p) -> is_size_t pos ->
  exists r, rfind m v p pos = Some r /\
            greatest_upto (Search.occurs_at m v p) pos r.
Proof.
  intros Hv Hp Hpos.
  pose proof (ViewFacts.length_size_t v Hv) as Hl.
  pose proof (ViewFacts.length_size_t p Hp) as Hlp.
  assert (Hn : 0 <= length p) by apply Hlp.
  unfold rfind, rfind_buf.
  destruct (Z.leb_spec (length p) (length v)) as [Hfit | Hlong].
  - assert (Hu : u64 (length v - length p) = length v - length p).
    { apply Z.mod_small. unfold is_size_t in *. lia. }
    rewrite Hu, rfind_loop_scan.
    set (hi := Z.min (length v - length p) pos).
    assert (Hhi : is_size_t hi) by (unfold hi, is_size_t in *; lia).
    destruct (bwd_scan_spec
                (fun i => traits_type.compare m (str_ v + i) (str_ p) (length p) =? 0)
                (S (Z.to_nat hi)) hi Hhi) as (r & Er & Hr); [lia|].
    exists r. split; [exact Er|].
    destruct Hr as [(Hrange & Ht & Hmax) | (Hnp & Hnone)]; [left | right].
    + split; [unfold hi in Hrange; lia|]. split.
      * unfold Search.occurs_at. split; [lia|]. split; [unfold hi in Hrange; lia|].
        apply compare_zero_same_chars; assumption.
      * intros i Hi (Hi0 & Hib & Hs).
        apply (Hmax i); [unfold hi; lia|].
        apply compare_zero_same_chars; assumption.
    + split; [exact Hnp|]. intros i Hi (Hi0 & Hib & Hs).
      apply (Hnone i); [unfold hi; lia|].
      apply compare_zero_same_chars; assumption.
  - exists npos. split; [reflexivity|]. right. split; [reflexivity|].
    intros i Hi (Hi0 & Hib & _). lia.
Qed.

(** [rfind(p, pos)] is the greatest index at or before [pos] at which [p]
    occurs in the view, and [npos] when there is none, in particular when [p]
    is longer than the view; for the empty pattern it is
    [min(length(), pos)]. *)
Theorem rfind_greatest {T : char_traits} (m : Mem) (v p : basic_string_view)
  (pos : Z)
  (Hv : is_size_t (len_ v)) (Hp : is_size_t (len_ p)) (Hpos : is_size_t pos) :
  exists r,
    rfind m v p pos = Some r /\
    greatest_upto (Search.occurs_at m v p) pos r /\
    (length v < length p -> r = npos) /\
    (length p = 0 -> r = Z.min (length v) pos).
Proof.
  pose proof (ViewFacts.length_size_t v Hv) as Hl.
  destruct (rfind_scan m v p pos Hv Hp Hpos) as (r & Er & Hr).
  exists r. split; [exact Er|]. split; [exact Hr|]. split.
  - intros Hlong. destruct Hr as [(_ & (Hr0 & Hb & _) & _) | (Hnp & _)];
      [lia | exact Hnp].
  - intros Hz.
    assert (Hocc : Search.occurs_at m v p (Z.min (length v) pos)).
    { unfold Search.occurs_at, Search.same_chars. rewrite Hz.
      unfold is_size_t in *. split; [lia|]. split; [lia|]. intros k Hk. lia. }
    destruct Hr as [(Hrange & (_ & Hb & _) & Hmax) | (_ & Hnone)].
    + destruct (Z.lt_trichotomy r (Z.min (length v) pos)) as [Hlt | [Heq | Hgt]];
        [|exact Heq | lia].
      exfalso. apply (Hmax (Z.min (length v) pos)); [lia | exact Hocc].
    + exfalso. apply (Hnone (Z.min (length v) pos));
        [unfold is_size_t in *; lia | exact Hocc].
Qed.

Lemma rfind_greatest_witness :
  exists r,
    rfind ViewCore.abc_mem (from_string 100 3) (from_ptr_len 101 2) npos = Some r /\
    greatest_upto
      (Search.occurs_at ViewCore.abc_mem (from_string 100 3) (from_ptr_len 101 2))
      npos r /\
    (length (from_string 100 3) < length (from_ptr_len 101 2) -> r = npos) /\
    (length (from_ptr_len 101 2) = 0 -> r = Z.min (length (from_string 100 3)) npos).
Proof.
  apply (@rfind_greatest std_char_traits ViewCore.abc_mem
           (from_string 100 3) (from_ptr_len 101 2) npos); closed_range.
Defined.

(** What the loop of [rfind(c, pos)] computes from [size] downwards. *)
Lemma rfind_char_loop_spec {T : char_traits} (m : Mem) (v : basic_string_view)
  (c : CharT) :
  forall (fuel : nat) (size : Z),
    is_size_t size -> size < Z.of_nat fuel ->
    exists r, rfind_char_loop m v c fuel size = Some r /\
              greatest_upto (fun i => eq (m (str_ v + i)) c = true) (size - 1) r.
Proof.
  induction fuel as [|fuel IH]; intros size Hsize Hfuel;
    [unfold is_size_t in Hsize; lia|].
  simpl. destruct (Z.gtb_spec size 0) as [Hgt | Hle].
  - assert (Hprev : u64 (size - 1) = size - 1).
    { apply Z.mod_small. unfold is_size_t in Hsize. lia. }
    rewrite Hprev. destruct (eq (m (str_ v + (size - 1))) c) eqn:Ht.
    + exists (size - 1). split; [reflexivity|]. left.
      split; [lia|]. split; [exact Ht|]. intros i Hi. lia.
    + destruct (IH (size - 1)) as (r & Er & Hr);
        [unfold is_size_t in *; lia | lia |].
      exists r. split; [exact Er|].
      destruct Hr as [(Hrange & Hp & Hmax) | (Hnp & Hnone)]; [left | right].
      * split; [lia|]. split; [exact Hp|]. intros i Hi.
        destruct (Z.eq_dec i (size - 1)) as [-> | Hne];
          [congruence | apply Hmax; lia].
      * split; [exact Hnp|]. intros i Hi.
        destruct (Z.eq_dec i (size - 1)) as [-> | Hne];
          [congruence | apply Hnone; lia].
  - exists npos. split; [reflexivity|]. right. split; [reflexivity|].
    intros i Hi. unfold is_size_t in Hsize. lia.
Qed.

Lemma rfind_char_scan {T : char_traits} (m : Mem) (v : basic_string_view)
  (c : CharT) (pos : Z) :
  is_size_t (len_ v) -> 0 <= pos ->
  exists r, rfind_char m v c pos = Some r /\
            greatest_upto (fun i => eq (m (str_ v + i)) c = true)
                          (Z.min pos (length v - 1)) r.
Proof.
  intros Hv Hpos.
  pose proof (ViewFacts.length_size_t v Hv) as Hl.
  unfold rfind_char.
  destruct (Z.gtb_spec (length v) 0) as [Hgt | Hle].
  - destruct (last_index v pos Hv Hpos ltac:(lia)) as [-> Hsize].
    assert (Hnext : u64 (Z.min pos (length v - 1) + 1) = Z.min pos (length v - 1) + 1).
    { apply Z.mod_small. unfold is_size_t in *. lia. }
    rewrite Hnext.
    destruct (rfind_char_loop_spec m v c
                (S (Z.to_nat (Z.min pos (length v - 1) + 1)))
                (Z.min pos (length v - 1) + 1)) as (r & Er & Hr);
      [unfold is_size_t in *; lia | lia |].
    exists r. split; [exact Er|].
    replace (Z.min pos (length v - 1) + 1 - 1) with (Z.min pos (length v - 1)) in Hr
      by lia.
    exact Hr.
  - exists npos. split; [reflexivity|]. right. split; [reflexivity|].
    intros i Hi. lia.
Qed.

(** [rfind(c, pos)] is the greatest index at or before [pos] (and inside the
    view) whose character is [eq] to [c], and [npos] when there is none, in
    particular on an empty view; [find_last_of(c, pos)] is the same. *)
Theorem rfind_char_greatest {T : char_traits} (m : Mem) (v : basic_string_view)
  (c : CharT) (pos : Z)
  (Hv : is_size_t (len_ v)) (Hpos : 0 <= pos) :
  exists r,
    rfind_char m v c pos = Some r /\
    find_last_of_char m v c pos = Some r /\
    greatest_upto (fun i => eq (m (str_ v + i)) c = true)
                  (Z.min pos (length v - 1)) r /\
    (empty v = true -> r = npos).
Proof.
  destruct (rfind_char_scan m v c pos Hv Hpos) as (r & Er & Hr).
  exists r. split; [exact Er|]. split; [exact Er|]. split; [exact Hr|].
  intros He. apply Z.eqb_eq in He.
  destruct (greatest_upto_bound _ _ _ Hr) as [E | Hin]; [exact E | lia].
Qed.

Lemma rfind_char_greatest_witness :
  exists r,
    rfind_char ViewCore.abc_mem (from_string 100 3) 98 npos = Some r /\
    find_last_of_char ViewCore.abc_mem (from_string 100 3) 98 npos = Some r /\
    greatest_upto (fun i => eq (ViewCore.abc_mem (str_ (from_string 100 3) + i)) 98 = true)
                  (Z.min npos (length (from_string 100 3) - 1)) r /\
    (empty (from_string 100 3) = true -> r = npos).
Proof.
  apply (@rfind_char_greatest std_char_traits ViewCore.abc_mem (from_string 100 3) 98 npos).
  - closed_range.
  - vm_compute. discriminate.
Defined.

(** A pattern of one character occurs where that character stands. *)
Lemma occurs_at_one {T : char_traits} (m : Mem) (v p : basic_string_view) (i : Z) :
  length p = 1 ->
  Search.occurs_at m v p i
  <-> 0 <= i < length v /\ eq (m (str_ v + i)) (m (str_ p)) = true.
Proof.
  intros H1. unfold Search.occurs_at, Search.same_chars. rewrite H1. split.
  - intros (Hi & Hb & Hs). split; [lia|].
    specialize (Hs 0 ltac:(lia)). now rewrite !Z.add_0_r in Hs.
  - intros (Hi & He). split; [lia|]. split; [lia|].
    intros k Hk. assert (k = 0) by lia. subst k. now rewrite !Z.add_0_r.
Qed.

(** Searching for a pattern of one character is searching for that
    character: [find] agrees with [find(c, pos)], and [rfind] with
    [rfind(c, pos)]. *)
Theorem one_char_pattern_is_char_search {T : char_traits} (m : Mem)
  (v p : basic_string_view) (pos : Z)
  (Hv : is_size_t (len_ v)) (Hp : is_size_t (len_ p)) (Hpos : is_size_t pos)
  (H1 : length p = 1) :
  find m v p pos = Some (find_char m v (m (str_ p)) pos) /\
  rfind m v p pos = rfind_char m v (m (str_ p)) pos.
Proof.
  pose proof (ViewFacts.length_size_t v Hv) as Hl.
  pose proof (Search.length_below_npos v Hv) as Hnp.
  split.
  - destruct (Search.find_least m v p pos Hv Hp (proj1 Hpos)) as (r & Er & Hr).
    rewrite Er. f_equal.
    apply (least_from_unique (fun i => eq (m (str_ v + i)) (m (str_ p)) = true)
             pos (length v)); [lia | | apply find_char_scan; [exact Hv | apply Hpos]].
    destruct Hr as [(_ & Hle & Hocc & Hmin) | (E & Hnone)]; [left | right].
    + apply (occurs_at_one m v p r H1) in Hocc. destruct Hocc as [Hr He].
      split; [lia|]. split; [exact He|].
      intros i Hi Hc. apply (Hmin i Hi).
      apply (occurs_at_one m v p i H1). split; [unfold is_size_t in Hpos; lia | exact Hc].
    + split; [exact E|]. intros i Hi Hc. apply (Hnone i); [lia|].
      apply (occurs_at_one m v p i H1). split; [unfold is_size_t in Hpos; lia | exact Hc].
  - destruct (rfind_scan m v p pos Hv Hp Hpos) as (r & Er & Hr).
    destruct (rfind_char_scan m v (m (str_ p)) pos Hv (proj1 Hpos)) as (r' & Er' & Hr').
    rewrite Er, Er'. f_equal.
    apply (greatest_upto_unique (fun i => eq (m (str_ v + i)) (m (str_ p)) = true)
             (Z.min pos (length v - 1))); [lia | | exact Hr'].
    destruct Hr as [(Hrange & Hocc & Hmax) | (E & Hnone)]; [left | right].
    + apply (occurs_at_one m v p r H1) in Hocc. destruct Hocc as [Hr He].
      split; [lia|]. split; [exact He|].
      intros i Hi Hc. apply (Hmax i); [lia|].
      apply (occurs_at_one m v p i H1). split; [lia | exact Hc].
    + split; [exact E|]. intros i Hi Hc. apply (Hnone i); [lia|].
      apply (occurs_at_one m v p i H1). split; [lia | exact Hc].
Qed.

Lemma one_char_pattern_is_char_search_witness :
  find ViewCore.abc_mem (from_string 100 3) (from_ptr_len 101 1) 0
  = Some (find_char ViewCore.abc_mem (from_string 100 3)
            (ViewCore.abc_mem (str_ (from_ptr_len 101 1))) 0) /\
  rfind ViewCore.abc_mem (from_string 100 3) (from_ptr_len 101 1) 0
  = rfind_char ViewCore.abc_mem (from_string 100 3)
      (ViewCore.abc_mem (str_ (from_ptr_len 101 1))) 0.
Proof.
  apply (@one_char_pattern_is_char_search std_char_traits ViewCore.abc_mem
           (from_string 100 3) (from_ptr_len 101 1) 0); try closed_range.
  reflexivity.
Defined.



End BackSearch.

(** ** Prefix and suffix tests *)

Module AffixFacts.
Import sv FlagFacts ScanFacts.

(** What [starts_with(x)] returns. *)
Lemma starts_with_occurs {T : char_traits} (m : Mem) (v x : basic_string_view) :
  is_size_t (len_ v) -> is_size_t (len_ x) ->
  exists b, starts_with m v x = Returns b /\
            (b = true <-> Search.occurs_at m v x 0).
Proof.
  intros Hv Hx.
  pose proof (ViewFacts.length_size_t v Hv) as Hl.
  pose proof (ViewFacts.length_size_t x Hx) as Hlx.
  destruct (ViewFacts.substr_shape v 0 (length x) Hv) as (s & Es & Ep & Hs & _ & El);
    [unfold is_size_t in Hl; lia | apply Hlx |].
  rewrite Z.sub_0_r in El.
  assert (Hmin : is_size_t (Z.min (length x) (length v)))
    by (unfold is_size_t in *; lia).
  rewrite clear_unflagged in El;
    [|exact Hmin
     |apply ViewFacts.min_unflagged; apply ViewFacts.length_unflagged; assumption].
  unfold starts_with, size. rewrite Es. simpl.
  exists (equal m s x). split; [reflexivity|].
  rewrite (OrderFacts.equal_is_compare_zero m s x Hs Hx), Z.eqb_eq.
  rewrite (OrderFacts.compare_zero_iff m s x Hs Hx), El, Ep.
  unfold Search.occurs_at, Search.same_chars. split.
  - intros [Hlen Hall]. split; [lia|]. split; [lia|].
    intros k Hk. apply Hall. lia.
  - intros (_ & Hb & Hall). split; [lia|].
    intros k Hk. apply Hall. lia.
Qed.

(** What [ends_with(x)] returns. *)
Lemma ends_with_occurs {T : char_traits} (m : Mem) (v x : basic_string_view) :
  is_size_t (len_ v) -> is_size_t (len_ x) ->
  exists b, ends_with m v x = Returns b /\
            (b = true <-> Search.occurs_at m v x (length v - length x)).
Proof.
  intros Hv Hx.
  pose proof (ViewFacts.length_size_t v Hv) as Hl.
  pose proof (ViewFacts.length_size_t x Hx) as Hlx.
  pose proof (Search.length_below_npos x Hx) as Hnp.
  unfold ends_with, size.
  destruct (Z.geb_spec (length v) (length x)) as [Hfit | Hlong].
  - assert (Hu : u64 (length v - length x) = length v - length x).
    { apply Z.mod_small. unfold is_size_t in *. lia. }
    rewrite Hu.
    destruct (ViewFacts.substr_shape v (length v - length x) npos Hv)
      as (s & Es & Ep & Hs & _ & El);
      [unfold is_size_t in *; lia | vm_compute; discriminate |].
    replace (length v - (length v - length x)) with (length x) in El by lia.
    rewrite Z.min_r in El by lia.
    rewrite clear_unflagged in El;
      [|exact Hlx | apply ViewFacts.length_unflagged; exact Hx].
    unfold compare_sub. rewrite Es. simpl.
    exists (compare m s x =? 0). split; [reflexivity|].
    rewrite Z.eqb_eq, (OrderFacts.compare_zero_iff m s x Hs Hx), El, Ep.
    unfold Search.occurs_at, Search.same_chars. split.
    + intros [_ Hall]. split; [lia|]. split; [lia|]. exact Hall.
    + intros (_ & _ & Hall). split; [reflexivity | exact Hall].
  - exists false. split; [reflexivity|]. split; [discriminate|].
    intros (Hneg & _). lia.
Qed.

(** [starts_with(x)] never fails; it answers [true] exactly when [x] is no
    longer than the view and the first [x.length()] characters of the view
    are those of [x], which is exactly when [find(x, 0)] returns 0.  Every
    view starts with the empty view and with itself. *)
Theorem starts_with_iff_prefix {T : char_traits} {L : char_traits_laws T}
  (m : Mem) (v x : basic_string_view)
  (Hv : is_size_t (len_ v)) (Hx : is_size_t (len_ x)) :
  exists b,
    starts_with m v x = Returns b /\
    (b = true <->
     length x <= length v /\
     forall k, 0 <= k < length x -> eq (m (str_ v + k)) (m (str_ x + k)) = true) /\
    (b = true <-> find m v x 0 = Some 0) /\
    (length x = 0 -> b = true) /\
    starts_with m v v = Returns true.
Proof.
  pose proof (ViewFacts.length_size_t v Hv) as Hl.
  pose proof (ViewFacts.length_size_t x Hx) as Hlx.
  destruct (starts_with_occurs m v x Hv Hx) as (b & Eb & Hb).
  assert (Hocc : Search.occurs_at m v x 0 <->
                 length x <= length v /\
                 forall k, 0 <= k < length x ->
                           eq (m (str_ v + k)) (m (str_ x + k)) = true).
  { unfold Search.occurs_at, Search.same_chars. split.
    - intros (_ & Hfit & Hall). split; [lia|].
      intros k Hk. specialize (Hall k Hk). now rewrite Z.add_0_r in Hall.
    - intros (Hfit & Hall). split; [lia|]. split; [lia|].
      intros k Hk. rewrite Z.add_0_r. apply Hall. exact Hk. }
  exists b. split; [exact Eb|]. split; [rewrite Hb; exact Hocc|].
  split; [|split].
  - rewrite Hb.
    destruct (Search.find_least m v x 0 Hv Hx (Z.le_refl 0)) as (r & Er & Hr).
    rewrite Er. split.
    + intros H0. f_equal.
      destruct Hr as [(_ & Hle & _ & Hmin) | (_ & Hnone)].
      * destruct (Z.eq_dec r 0) as [E | NE]; [exact E|].
        exfalso. apply (Hmin 0); [lia | exact H0].
      * exfalso. apply (Hnone 0); [lia | exact H0].
    + intros E. injection E as ->.
      destruct Hr as [(_ & _ & H0 & _) | (Hnp & _)]; [exact H0 | discriminate].
  - intros Hz. apply Hb, Hocc. split; [unfold is_size_t in Hl; lia|].
    intros k Hk. lia.
  - destruct (starts_with_occurs m v v Hv Hv) as (bv & Ebv & Hbv).
    rewrite Ebv. f_equal. apply Hbv.
    unfold Search.occurs_at, Search.same_chars. split; [lia|]. split; [lia|].
    intros k Hk. rewrite Z.add_0_r. apply eq_reflexive.
Qed.

Lemma starts_with_iff_prefix_witness :
  exists b,
    starts_with ViewCore.abc_mem (from_string 100 3) (from_ptr_len 100 2) = Returns b /\
    (b = true <->
     length (from_ptr_len 100 2) <= length (from_string 100 3) /\
     forall k, 0 <= k < length (from_ptr_len 100 2) ->
       eq (ViewCore.abc_mem (str_ (from_string 100 3) + k))
          (ViewCore.abc_mem (str_ (from_ptr_len 100 2) + k)) = true) /\
    (b = true <->
     find ViewCore.abc_mem (from_string 100 3) (from_ptr_len 100 2) 0 = Some 0) /\
    (length (from_ptr_len 100 2) = 0 -> b = true) /\
    starts_with ViewCore.abc_mem (from_string 100 3) (from_string 100 3) = Returns true.
Proof.
  apply (@starts_with_iff_prefix std_char_traits std_char_traits_laws
           ViewCore.abc_mem (from_string 100 3) (from_ptr_len 100 2)); closed_range.
Defined.

(** [ends_with(x)] never fails; it answers [true] exactly when [x] is no
    longer than the view and the last [x.length()] characters of the view
    are those of [x], which is exactly when [rfind(x)] returns
    [length() - x.length()]. *)
Theorem ends_with_iff_suffix {T : char_traits} (m : Mem)
  (v x : basic_string_view)
  (Hv : is_size_t (len_ v)) (Hx : is_size_t (len_ x)) :
  exists b,
    ends_with m v x = Returns b /\
    (b = true <->
     length x <= length v /\
     forall k, 0 <= k < length x ->
       eq (m (str_ v + (length v - length x) + k)) (m (str_ x + k)) = true) /\
    (b = true <-> rfind m v x npos = Some (length v - length x)) /\
    (length x = 0 -> b = true).
Proof.
  pose proof (ViewFacts.length_size_t v Hv) as Hl.
  pose proof (ViewFacts.length_size_t x Hx) as Hlx.
  pose proof (Search.length_below_npos v Hv) as Hnp.
  destruct (ends_with_occurs m v x Hv Hx) as (b & Eb & Hb).
  assert (Hocc : Search.occurs_at m v x (length v - length x) <->
                 length x <= length v /\
                 forall k, 0 <= k < length x ->
                   eq (m (str_ v + (length v - length x) + k)) (m (str_ x + k)) = true).
  { unfold Search.occurs_at, Search.same_chars. split.
    - intros (Hfit & _ & Hall). split; [lia | exact Hall].
    - intros (Hfit & Hall). split; [lia|]. split; [lia | exact Hall]. }
  exists b. split; [exact Eb|]. split; [rewrite Hb; exact Hocc|].
  unfold is_size_t in Hl, Hlx. split.
  - rewrite Hb.
    destruct (BackSearch.rfind_scan m v x npos Hv Hx ltac:(closed_range))
      as (r & Er & Hr).
    rewrite Er. split.
    + intros Hend. f_equal.
      destruct Hr as [(_ & (_ & Hfit & _) & Hmax) | (_ & Hnone)].
      * destruct (Z.lt_trichotomy r (length v - length x)) as [Hlt | [E | Hgt]];
          [|exact E | lia].
        exfalso. apply (Hmax (length v - length x)); [lia | exact Hend].
      * exfalso. destruct Hend as (Hfit & Hrest).
        apply (Hnone (length v - length x)); [lia|].
        split; [exact Hfit | exact Hrest].
    + intros E. injection E as ->.
      destruct Hr as [(_ & Hend & _) | (Hnpos & _)]; [exact Hend|].
      exfalso. unfold is_size_t in Hlx. lia.
  - intros Hz. apply Hb, Hocc. split; [unfold is_size_t in Hl; lia|].
    intros k Hk. lia.
Qed.

Lemma ends_with_iff_suffix_witness :
  exists b,
    ends_with ViewCore.abc_mem (from_string 100 3) (from_ptr_len 101 2) = Returns b /\
    (b = true <->
     length (from_ptr_len 101 2) <= length (from_string 100 3) /\
     forall k, 0 <= k < length (from_ptr_len 101 2) ->
       eq (ViewCore.abc_mem
             (str_ (from_string 100 3)
              + (length (from_string 100 3) - length (from_ptr_len 101 2)) + k))
          (ViewCore.abc_mem (str_ (from_ptr_len 101 2) + k)) = true) /\
    (b = true <->
     rfind ViewCore.abc_mem (from_string 100 3) (from_ptr_len 101 2) npos
     = Some (length (from_string 100 3) - length (from_ptr_len 101 2))) /\
    (length (from_ptr_len 101 2) = 0 -> b = true).
Proof.
  apply (@ends_with_iff_suffix std_char_traits
           ViewCore.abc_mem (from_string 100 3) (from_ptr_len 101 2)); closed_range.
Defined.

(** [starts_with(c)] and [ends_with(c)] are [false] on an empty view and
    otherwise compare the first and the last character; they agree with the
    tests against a view of that one character. *)
Theorem affix_char_is_affix_of_one {T : char_traits} (m : Mem)
  (v x : basic_string_view)
  (Hv : is_size_t (len_ v)) (Hx : is_size_t (len_ x)) (H1 : length x = 1) :
  starts_with m v x = Returns (starts_with_char m v (m (str_ x))) /\
  ends_with m v x = Returns (ends_with_char m v (m (str_ x))) /\
  (empty v = true ->
   starts_with_char m v (m (str_ x)) = false /\
   ends_with_char m v (m (str_ x)) = false).
Proof.
  pose proof (ViewFacts.length_size_t v Hv) as Hl.
  destruct (starts_with_occurs m v x Hv Hx) as (b & Eb & Hb).
  destruct (ends_with_occurs m v x Hv Hx) as (e & Ee & He).
  rewrite (BackSearch.occurs_at_one m v x _ H1) in Hb.
  rewrite (BackSearch.occurs_at_one m v x _ H1) in He.
  unfold starts_with_char, ends_with_char, front, back, empty.
  rewrite Eb, Ee, H1 in *. rewrite Z.add_0_r in Hb.
  replace (str_ v + (length v - 1)) with (str_ v + length v - 1) in He by lia.
  split; [|split].
  - f_equal. destruct (Z.eqb_spec (length v) 0) as [Hz | Hnz]; simpl.
    + destruct b; [|reflexivity]. destruct (proj1 Hb eq_refl). lia.
    + destruct (eq (m (str_ v)) (m (str_ x))) eqn:E.
      * apply Hb. split; [unfold is_size_t in Hl; lia | reflexivity].
      * destruct b; [|reflexivity]. destruct (proj1 Hb eq_refl). congruence.
  - f_equal. destruct (Z.eqb_spec (length v) 0) as [Hz | Hnz]; simpl.
    + destruct e; [|reflexivity]. destruct (proj1 He eq_refl). lia.
    + destruct (eq (m (str_ v + length v - 1)) (m (str_ x))) eqn:E.
      * apply He. split; [unfold is_size_t in Hl; lia | reflexivity].
      * destruct e; [|reflexivity]. destruct (proj1 He eq_refl). congruence.
  - intros Hz. rewrite Hz. split; reflexivity.
Qed.

Lemma affix_char_is_affix_of_one_witness :
  starts_with ViewCore.abc_mem (from_string 100 3) (from_ptr_len 100 1)
  = Returns (starts_with_char ViewCore.abc_mem (from_string 100 3)
               (ViewCore.abc_mem (str_ (from_ptr_len 100 1)))) /\
  ends_with ViewCore.abc_mem (from_string 100 3) (from_ptr_len 100 1)
  = Returns (ends_with_char ViewCore.abc_mem (from_string 100 3)
               (ViewCore.abc_mem (str_ (from_ptr_len 100 1)))).
Proof.
  destruct (@affix_char_is_affix_of_one std_char_traits ViewCore.abc_mem
              (from_string 100 3) (from_ptr_len 100 1)
              ltac:(closed_range) ltac:(closed_range) eq_refl) as (Hs & He & _).
  split; [exact Hs | exact He].
Defined.

End AffixFacts.

(** ** Inside the hash *)

Module HashFacts.
Import detail FlagFacts.

Lemma size_t_high_bits (x i : Z) :
  is_size_t x -> 64 <= i -> Z.testbit x i = false.
Proof.
  intros Hx Hi. rewrite <- (Z.mod_small x (2 ^ 64)) by exact Hx.
  apply Z.mod_pow2_bits_high. lia.
Qed.

Lemma size_t_of_bits (x : Z) :
  (forall i, 0 <= i -> 64 <= i -> Z.testbit x i = false) -> 0 <= x ->
  is_size_t x.
Proof.
  intros Hbits Hx.
  assert (E : x mod 2 ^ 64 = x).
  { apply Z.bits_inj'. intros i Hi. rewrite Z.testbit_mod_pow2 by lia.
    destruct (Z.ltb_spec i 64); simpl; [reflexivity|].
    symmetry. apply Hbits; lia. }
  rewrite <- E. apply Z.mod_pos_bound. reflexivity.
Qed.

Lemma lxor_size_t (a b : Z) : is_size_t a -> is_size_t b -> is_size_t (Z.lxor a b).
Proof.
  intros Ha Hb. apply size_t_of_bits.
  - intros i Hi H64. rewrite Z.lxor_spec.
    now rewrite (size_t_high_bits a i Ha H64), (size_t_high_bits b i Hb H64).
  - apply Z.lxor_nonneg. unfold is_size_t in *. split; intros; lia.
Qed.

Lemma lxor_cancel_r (a b d : Z) : Z.lxor a d = Z.lxor b d -> a = b.
Proof.
  intros H.
  assert (Hback : forall x, Z.lxor (Z.lxor x d) d = x).
  { intros x. now rewrite Z.lxor_assoc, Z.lxor_nilpotent, Z.lxor_0_r. }
  rewrite <- (Hback a), <- (Hback b), H. reflexivity.
Qed.

Lemma shift_mix_size_t (v : Z) : is_size_t v -> is_size_t (shift_mix_ v).
Proof.
  intros Hv. unfold shift_mix_. apply lxor_size_t; [exact Hv|].
  apply size_t_of_bits.
  - intros i Hi H64. rewrite Z.shiftr_spec by lia.
    apply (size_t_high_bits v); [exact Hv | lia].
  - apply Z.shiftr_nonneg. apply Hv.
Qed.

Lemma shift_mix_twice (v : Z) : is_size_t v -> shift_mix_ (shift_mix_ v) = v.
Proof.
  intros Hv. unfold shift_mix_. apply Z.bits_inj'. intros i Hi.
  rewrite !Z.lxor_spec, !Z.shiftr_spec, !Z.lxor_spec, !Z.shiftr_spec by lia.
  rewrite (size_t_high_bits v (i + 47 + 47)) by (try exact Hv; lia).
  destruct (Z.testbit v i), (Z.testbit v (i + 47)); reflexivity.
Qed.

Lemma shift_mix_injective (v w : Z) :
  is_size_t v -> is_size_t w -> shift_mix_ v = shift_mix_ w -> v = w.
Proof.
  intros Hv Hw H.
  rewrite <- (shift_mix_twice v Hv), <- (shift_mix_twice w Hw), H. reflexivity.
Qed.

(** The inverse of the multiplier modulo 2^64. *)
Definition mul_inverse : Z := 0x5f7a0ea7e59b19bd.

Lemma mul_inverse_ok : u64 (mul * mul_inverse) = 1.
Proof. vm_compute. reflexivity. Qed.

Lemma times_mul_injective (a b : Z) :
  is_size_t a -> is_size_t b -> u64 (a * mul) = u64 (b * mul) -> a = b.
Proof.
  intros Ha Hb H.
  assert (Hback : forall x, is_size_t x -> u64 (u64 (x * mul) * mul_inverse) = x).
  { intros x Hx. unfold u64.
    rewrite Z.mul_mod_idemp_l by (vm_compute; discriminate).
    rewrite <- Z.mul_assoc, <- Z.mul_mod_idemp_r by (vm_compute; discriminate).
    change ((mul * mul_inverse) mod size_t_modulus) with 1.
    rewrite Z.mul_1_r. apply Z.mod_small. exact Hx. }
  rewrite <- (Hback a Ha), <- (Hback b Hb), H. reflexivity.
Qed.

(** One accumulation step of the hash: [hash ^= data; hash *= mul]. *)
Lemma step_injective (h1 h2 d : Z) :
  is_size_t h1 -> is_size_t h2 -> is_size_t d ->
  u64 (Z.lxor h1 d * mul) = u64 (Z.lxor h2 d * mul) -> h1 = h2.
Proof.
  intros H1 H2 Hd H.
  apply (lxor_cancel_r h1 h2 d).
  apply times_mul_injective; [apply lxor_size_t | apply lxor_size_t |]; assumption.
Qed.

Lemma u64_size_t (x : Z) : is_size_t (u64 x).
Proof. apply Z.mod_pos_bound. reflexivity. Qed.

Lemma hash_chunks_size_t (buf : bytes) (k : nat) : forall p h,
  is_size_t h -> is_size_t (hash_chunks buf k p h).
Proof.
  induction k as [|k IH]; intros p h Hh; simpl; [exact Hh|].
  apply IH. apply u64_size_t.
Qed.

Lemma hash_chunks_injective (buf : bytes) (k : nat) : forall p h1 h2,
  is_size_t h1 -> is_size_t h2 ->
  hash_chunks buf k p h1 = hash_chunks buf k p h2 -> h1 = h2.
Proof.
  induction k as [|k IH]; intros p h1 h2 H1 H2 H; simpl in H; [exact H|].
  apply IH in H; try apply u64_size_t.
  apply (step_injective h1 h2 _ H1 H2 (u64_size_t _) H).
Qed.

Lemma load_bytes_loop_size_t (buf : bytes) (p : Z) (k : nat) : forall r,
  is_size_t r -> is_size_t (load_bytes_loop buf p k r).
Proof.
  induction k as [|k IH]; intros r Hr; simpl; [exact Hr|].
  apply IH. apply u64_size_t.
Qed.

(** The shift-mix step of the hash is its own inverse on [size_t], so it
    maps distinct words to distinct words. *)
Theorem shift_mix_involution (v w : Z) (Hv : is_size_t v) (Hw : is_size_t w) :
  shift_mix_ (shift_mix_ v) = v /\
  is_size_t (shift_mix_ v) /\
  (shift_mix_ v = shift_mix_ w -> v = w).
Proof.
  split; [apply shift_mix_twice; exact Hv|].
  split; [apply shift_mix_size_t; exact Hv|].
  apply shift_mix_injective; assumption.
Qed.

Lemma shift_mix_involution_witness :
  shift_mix_ (shift_mix_ (2 ^ 63 + 5)) = 2 ^ 63 + 5 /\
  is_size_t (shift_mix_ (2 ^ 63 + 5)) /\
  (shift_mix_ (2 ^ 63 + 5) = shift_mix_ 7 -> 2 ^ 63 + 5 = 7).
Proof. apply (shift_mix_involution (2 ^ 63 + 5) 7); closed_range. Defined.

Lemma hash_bytes_same_seed (buf : bytes) (len seed1 seed2 : Z) :
  is_size_t seed1 -> is_size_t seed2 ->
  hash_bytes_ buf len seed1 = hash_bytes_ buf len seed2 ->
  seed1 = seed2 /\ is_size_t (hash_bytes_ buf len seed1).
Proof.
  intros H1 H2 H.
  split; [|unfold hash_bytes_; apply shift_mix_size_t, u64_size_t].
  unfold hash_bytes_ in H.
  set (k := Z.to_nat (Z.land len (not64 7) / 8)) in *.
  set (a1 := hash_chunks buf k 0 (Z.lxor seed1 (u64 (len * mul)))) in *.
  set (a2 := hash_chunks buf k 0 (Z.lxor seed2 (u64 (len * mul)))) in *.
  assert (Ha1 : is_size_t a1)
    by (apply hash_chunks_size_t, lxor_size_t; [exact H1 | apply u64_size_t]).
  assert (Ha2 : is_size_t a2)
    by (apply hash_chunks_size_t, lxor_size_t; [exact H2 | apply u64_size_t]).
  assert (Hfinal : forall b1 b2, is_size_t b1 -> is_size_t b2 ->
            shift_mix_ (u64 (shift_mix_ b1 * mul))
            = shift_mix_ (u64 (shift_mix_ b2 * mul)) -> b1 = b2).
  { intros b1 b2 Hb1 Hb2 E.
    apply shift_mix_injective in E; try apply u64_size_t.
    apply times_mul_injective in E; try (apply shift_mix_size_t; assumption).
    apply shift_mix_injective in E; assumption. }
  assert (Ha : a1 = a2).
  { destruct (negb (Z.land len 7 =? 0)).
    - apply Hfinal in H; try apply u64_size_t.
      apply (step_injective a1 a2 _ Ha1 Ha2) in H; [exact H|].
      unfold load_bytes_. apply load_bytes_loop_size_t.
      split; [lia | reflexivity].
    - apply Hfinal in H; assumption. }
  unfold a1, a2 in Ha.
  apply hash_chunks_injective in Ha;
    try (apply lxor_size_t; [assumption | apply u64_size_t]).
  exact (lxor_cancel_r _ _ _ Ha).
Qed.

(** [hash_bytes_] always yields a [size_t], and for one buffer and length it
    never maps two different seeds to one hash. *)
Theorem hash_bytes_seed_injective (buf : bytes) (len seed1 seed2 : Z)
  (H1 : is_size_t seed1) (H2 : is_size_t seed2) (Hne : seed1 <> seed2) :
  hash_bytes_ buf len seed1 <> hash_bytes_ buf len seed2 /\
  is_size_t (hash_bytes_ buf len seed1).
Proof.
  split.
  - intros E. apply Hne. apply (hash_bytes_same_seed buf len seed1 seed2 H1 H2 E).
  - unfold hash_bytes_. apply shift_mix_size_t, u64_size_t.
Qed.

Lemma hash_bytes_seed_injective_witness :
  hash_bytes_ (fun _ => 97) 11 1 <> hash_bytes_ (fun _ => 97) 11 2 /\
  is_size_t (hash_bytes_ (fun _ => 97) 11 1).
Proof.
  apply (hash_bytes_seed_injective (fun _ => 97) 11 1 2); try closed_range.
  discriminate.
Defined.

(** The value of [n] bytes read with the first byte least significant. *)
Fixpoint le_value (buf : bytes) (p : Z) (n : nat) : Z :=
  match n with
  | O => 0
  | S k => le_value buf p k + buf (p + Z.of_nat k) * 256 ^ Z.of_nat k
  end.

Lemma le_value_bound (buf : bytes) (p : Z) :
  (forall i, 0 <= buf i < 256) ->
  forall n, 0 <= le_value buf p n < 256 ^ Z.of_nat n.
Proof.
  intros Hb. induction n as [|n IH]; [simpl; lia|].
  cbn [le_value]. rewrite Nat2Z.inj_succ, Z.pow_succ_r by lia.
  pose proof (Hb (p + Z.of_nat n)) as Hn.
  assert (0 < 256 ^ Z.of_nat n) by (apply Z.pow_pos_nonneg; lia).
  nia.
Qed.

Lemma load_bytes_loop_value (buf : bytes) (p : Z) :
  (forall i, 0 <= buf i < 256) ->
  forall (k : nat) (j r : Z),
    0 <= j -> Z.of_nat k + j <= 8 -> 0 <= r < 256 ^ j ->
    load_bytes_loop buf p k r = r * 256 ^ Z.of_nat k + le_value buf p k.
Proof.
  intros Hb. induction k as [|k IH]; intros j r Hj Hk Hr.
  - simpl. lia.
  - cbn [load_bytes_loop le_value].
    pose proof (Hb (p + Z.of_nat k)) as Hbk.
    assert (Hpow : 256 ^ (j + 1) <= 2 ^ 64).
    { change (2 ^ 64) with (256 ^ 8). apply Z.pow_le_mono_r; lia. }
    assert (Hstep : 256 ^ (j + 1) = 256 * 256 ^ j)
      by (rewrite Z.pow_add_r by lia; lia).
    rewrite Z.shiftl_mul_pow2 by lia. change (2 ^ 8) with 256.
    assert (Hu1 : u64 (r * 256) = r * 256).
    { apply Z.mod_small. change size_t_modulus with (2 ^ 64). nia. }
    rewrite Hu1.
    assert (Hu2 : u64 (r * 256 + buf (p + Z.of_nat k)) = r * 256 + buf (p + Z.of_nat k)).
    { apply Z.mod_small. change size_t_modulus with (2 ^ 64). nia. }
    rewrite Hu2, (IH (j + 1)) by (try lia; nia).
    rewrite Nat2Z.inj_succ, Z.pow_succ_r by lia. ring.
Qed.

Lemma unaligned_load_value (buf : bytes) (p : Z) :
  unaligned_load_ buf p = le_value buf p 8.
Proof.
  unfold unaligned_load_. cbn [seq fold_right le_value Z.of_nat].
  change (Z.pos (Pos.of_succ_nat 0)) with 1.
  ring_simplify. cbn. ring.
Qed.

(** [load_bytes_] packs the 1 to 7 bytes of the tail with the first byte
    least significant, the order in which [unaligned_load_] reads a full
    chunk, and the value packed is below 256^n. *)
Theorem load_bytes_little_endian (buf : bytes) (p n : Z)
  (Hb : forall i, 0 <= buf i < 256) (Hn : 1 <= n < 8) :
  load_bytes_ buf p n = le_value buf p (Z.to_nat n) /\
  0 <= load_bytes_ buf p n < 256 ^ n /\
  unaligned_load_ buf p = le_value buf p 8.
Proof.
  assert (Hv : load_bytes_ buf p n = le_value buf p (Z.to_nat n)).
  { unfold load_bytes_.
    rewrite (load_bytes_loop_value buf p Hb (Z.to_nat n) 0 0) by lia. lia. }
  split; [exact Hv|]. split; [|apply unaligned_load_value].
  rewrite Hv. pose proof (le_value_bound buf p Hb (Z.to_nat n)) as Hbound.
  rewrite Z2Nat.id in Hbound by lia. exact Hbound.
Qed.

Lemma load_bytes_little_endian_witness :
  load_bytes_ (fun _ => 7) 0 3 = le_value (fun _ => 7) 0 (Z.to_nat 3) /\
  0 <= load_bytes_ (fun _ => 7) 0 3 < 256 ^ 3 /\
  unaligned_load_ (fun _ => 7) 0 = le_value (fun _ => 7) 0 8.
Proof.
  apply (load_bytes_little_endian (fun _ => 7) 0 3); [intros i; lia | lia].
Defined.

End HashFacts.

(** ** The order of views *)

Module StrictOrder.
Import sv FlagFacts.

(** What a strict weak order on characters adds to the traits' laws. *)
Class char_traits_order (T : char_traits) : Prop := {
  eq_transitive : forall a b c, eq a b = true -> eq b c = true -> eq a c = true;
  lt_transitive : forall a b c, lt a b = true -> lt b c = true -> lt a c = true;
  lt_not_eq : forall a b, lt a b = true -> eq a b = false;
  lt_eq_left : forall a b c, eq a b = true -> lt b c = true -> lt a c = true;
  lt_eq_right : forall a b c, lt a b = true -> eq b c = true -> lt a c = true
}.

#[export] Instance std_char_traits_order : char_traits_order std_char_traits.
Proof.
  split; simpl; intros a b c;
    rewrite ?Z.eqb_eq, ?Z.ltb_lt, ?Z.eqb_neq; try intros ? ?; try intros ?; lia.
Qed.

Section Lex.
Context {T : char_traits}.
Variable m : Mem.

(** [x] comes before [y] in the lexicographic order: the first pair of
    characters that is not [eq] is [lt], or [x] is a proper prefix of [y]. *)
Definition lex_lt (x y : basic_string_view) : Prop :=
  (exists j, 0 <= j < Z.min (length x) (length y) /\
     (forall k, 0 <= k < j -> eq (m (str_ x + k)) (m (str_ y + k)) = true) /\
     eq (m (str_ x + j)) (m (str_ y + j)) = false /\
     lt (m (str_ x + j)) (m (str_ y + j)) = true)
  \/ ((forall k, 0 <= k < Z.min (length x) (length y) ->
         eq (m (str_ x + k)) (m (str_ y + k)) = true) /\
      length x < length y).

Lemma compare_n_cases (n : nat) : forall s1 s2,
  (traits_type.compare_n m s1 s2 n = 0 /\
   forall k, 0 <= k < Z.of_nat n -> eq (m (s1 + k)) (m (s2 + k)) = true)
  \/ (exists j, 0 <= j < Z.of_nat n /\
        (forall k, 0 <= k < j -> eq (m (s1 + k)) (m (s2 + k)) = true) /\
        eq (m (s1 + j)) (m (s2 + j)) = false /\
        traits_type.compare_n m s1 s2 n
        = if lt (m (s1 + j)) (m (s2 + j)) then -1 else 1).
Proof.
  intros s1 s2.
  destruct (Z.eq_dec (traits_type.compare_n m s1 s2 n) 0) as [Hz | Hnz].
  - left. split; [exact Hz | apply Comparator.compare_n_zero_inv; exact Hz].
  - right. revert s1 s2 Hnz.
    induction n as [|n IH]; intros s1 s2 Hnz; simpl in Hnz; [congruence|].
    destruct (eq (m s1) (m s2)) eqn:E.
    + destruct (IH _ _ Hnz) as (j & Hj & Hpre & Hne & Hc).
      exists (j + 1). split; [lia|].
      replace (s1 + (j + 1)) with (s1 + 1 + j) by lia.
      replace (s2 + (j + 1)) with (s2 + 1 + j) by lia.
      split; [|split; [exact Hne | simpl; rewrite E; exact Hc]].
      intros k Hk. destruct (Z.eq_dec k 0) as [-> | Hk0].
      * now rewrite !Z.add_0_r.
      * replace (s1 + k) with (s1 + 1 + (k - 1)) by lia.
        replace (s2 + k) with (s2 + 1 + (k - 1)) by lia. apply Hpre. lia.
    + exists 0. rewrite !Z.add_0_r. split; [lia|].
      split; [intros k Hk; lia|]. split; [exact E|]. simpl. now rewrite E.
Qed.

Lemma less_iff_lex (x y : basic_string_view) :
  is_size_t (len_ x) -> is_size_t (len_ y) ->
  - 2 ^ 63 <= length x - length y < 2 ^ 63 ->
  less m x y = true <-> lex_lt x y.
Proof.
  intros Hx Hy Hd.
  pose proof (ViewFacts.length_size_t x Hx) as Hlx.
  pose proof (ViewFacts.length_size_t y Hy) as Hly.
  assert (Hmin : Z.of_nat (Z.to_nat (Z.min (length x) (length y)))
                 = Z.min (length x) (length y))
    by (unfold is_size_t in *; lia).
  unfold less, compare, traits_type.compare, lex_lt. rewrite Z.ltb_lt. split.
  - destruct (compare_n_cases (Z.to_nat (Z.min (length x) (length y)))
                (str_ x) (str_ y)) as [(Hz & Hall) | (j & Hj & Hpre & Hne & Hc)].
    + rewrite Hz. simpl. rewrite Comparator.s_compare_exact by assumption.
      intros Hneg. right. split; [intros k Hk; apply Hall; lia|].
      unfold Comparator.clamp_int, int_min, int_max in Hneg. lia.
    + rewrite Hc. intros Hneg. left. exists j.
      split; [lia|]. split; [exact Hpre|]. split; [exact Hne|].
      destruct (lt (m (str_ x + j)) (m (str_ y + j))); [reflexivity|].
      simpl in Hneg. lia.
  - intros [(j & Hj & Hpre & Hne & Hlt) | (Hall & Hlen)].
    + rewrite (Comparator.compare_n_first_diff m _ _ _ j) by (try assumption; lia).
      rewrite Hlt. simpl. lia.
    + rewrite Comparator.compare_n_all_eq by (intros k Hk; apply Hall; lia).
      simpl. rewrite Comparator.s_compare_exact by assumption.
      unfold Comparator.clamp_int, int_min, int_max. lia.
Qed.

Context {O : char_traits_order T}.

Lemma lex_lt_transitive (x y z : basic_string_view) :
  lex_lt x y -> lex_lt y z -> lex_lt x z.
Proof.
  intros [(j1 & Hj1 & Hpre1 & Hne1 & Hlt1) | (Hall1 & Hlen1)]
         [(j2 & Hj2 & Hpre2 & Hne2 & Hlt2) | (Hall2 & Hlen2)].
  - destruct (Z.lt_trichotomy j1 j2) as [Hlt | [-> | Hgt]].
    + assert (Hxz : lt (m (str_ x + j1)) (m (str_ z + j1)) = true)
        by (apply (lt_eq_right _ _ _ Hlt1), Hpre2; lia).
      left. exists j1. split; [lia|]. split.
      * intros k Hk. apply (eq_transitive _ (m (str_ y + k)));
          [apply Hpre1 | apply Hpre2]; lia.
      * split; [apply lt_not_eq|]; exact Hxz.
    + assert (Hxz : lt (m (str_ x + j2)) (m (str_ z + j2)) = true)
        by (apply (lt_transitive _ _ _ Hlt1 Hlt2)).
      left. exists j2. split; [lia|]. split.
      * intros k Hk. apply (eq_transitive _ (m (str_ y + k)));
          [apply Hpre1 | apply Hpre2]; lia.
      * split; [apply lt_not_eq|]; exact Hxz.
    + assert (Hxz : lt (m (str_ x + j2)) (m (str_ z + j2)) = true)
        by (apply (lt_eq_left _ (m (str_ y + j2))); [apply Hpre1; lia | exact Hlt2]).
      left. exists j2. split; [lia|]. split.
      * intros k Hk. apply (eq_transitive _ (m (str_ y + k)));
          [apply Hpre1 | apply Hpre2]; lia.
      * split; [apply lt_not_eq|]; exact Hxz.
  - assert (Hxz : lt (m (str_ x + j1)) (m (str_ z + j1)) = true)
      by (apply (lt_eq_right _ _ _ Hlt1), Hall2; lia).
    left. exists j1. split; [lia|]. split.
    + intros k Hk. apply (eq_transitive _ (m (str_ y + k)));
        [apply Hpre1 | apply Hall2]; lia.
    + split; [apply lt_not_eq|]; exact Hxz.
  - destruct (Z.lt_ge_cases j2 (length x)) as [Hin | Hout].
    + assert (Hxz : lt (m (str_ x + j2)) (m (str_ z + j2)) = true)
        by (apply (lt_eq_left _ (m (str_ y + j2))); [apply Hall1; lia | exact Hlt2]).
      left. exists j2. split; [lia|]. split.
      * intros k Hk. apply (eq_transitive _ (m (str_ y + k)));
          [apply Hall1 | apply Hpre2]; lia.
      * split; [apply lt_not_eq|]; exact Hxz.
    + right. split; [|lia].
      intros k Hk. apply (eq_transitive _ (m (str_ y + k)));
        [apply Hall1 | apply Hpre2]; lia.
  - right. split; [|lia].
    intros k Hk. apply (eq_transitive _ (m (str_ y + k)));
      [apply Hall1 | apply Hall2]; lia.
Qed.
End Lex.

(** On views shorter than 2^63 characters, over characters with a strict
    weak order, [operator<] is the lexicographic order and a strict order:
    no view is less than itself, and [x < y] and [y < z] give [x < z] and
    exclude [y < x]. *)
Theorem less_is_strict_order {T : char_traits} {L : char_traits_laws T}
  {O : char_traits_order T} (m : Mem) (x y z : basic_string_view)
  (Hx : is_size_t (len_ x)) (Hy : is_size_t (len_ y)) (Hz : is_size_t (len_ z))
  (Hlx : length x < 2 ^ 63) (Hly : length y < 2 ^ 63) (Hlz : length z < 2 ^ 63) :
  (less m x y = true <-> lex_lt m x y) /\
  less m x x = false /\
  (less m x y = true -> less m y z = true -> less m x z = true) /\
  (less m x y = true -> less m y x = false).
Proof.
  pose proof (ViewFacts.length_size_t x Hx) as Hsx.
  pose proof (ViewFacts.length_size_t y Hy) as Hsy.
  pose proof (ViewFacts.length_size_t z Hz) as Hsz.
  unfold is_size_t in Hsx, Hsy, Hsz.
  assert (Hirr : forall v, is_size_t (len_ v) -> length v < 2 ^ 63 ->
                           less m v v = false).
  { intros v Hv Hlv. destruct (less m v v) eqn:E; [|reflexivity].
    pose proof (ViewFacts.length_size_t v Hv) as Hsv. unfold is_size_t in Hsv.
    apply (less_iff_lex m v v Hv Hv) in E; [|lia].
    destruct E as [(j & _ & _ & Hne & _) | (_ & Hlen)]; [|lia].
    rewrite eq_reflexive in Hne. discriminate. }
  assert (Htrans : less m x y = true -> less m y z = true -> less m x z = true).
  { intros Hxy Hyz.
    apply (less_iff_lex m x y Hx Hy) in Hxy; [|lia].
    apply (less_iff_lex m y z Hy Hz) in Hyz; [|lia].
    apply (less_iff_lex m x z Hx Hz); [lia|].
    exact (lex_lt_transitive m x y z Hxy Hyz). }
  split; [apply less_iff_lex; [exact Hx | exact Hy | lia]|].
  split; [apply Hirr; assumption|]. split; [exact Htrans|].
  intros Hxy. destruct (less m y x) eqn:Hyx; [|reflexivity].
  apply (less_iff_lex m x y Hx Hy) in Hxy; [|lia].
  apply (less_iff_lex m y x Hy Hx) in Hyx; [|lia].
  pose proof (lex_lt_transitive m x y x Hxy Hyx) as Hxx.
  apply (less_iff_lex m x x Hx Hx) in Hxx; [|lia].
  rewrite (Hirr x Hx Hlx) in Hxx. discriminate.
Qed.

Lemma less_is_strict_order_witness :
  less ViewCore.abc_mem (from_ptr_len 100 1) (from_ptr_len 100 1) = false /\
  less ViewCore.abc_mem (from_ptr_len 100 1) (from_string 100 3) = true /\
  less ViewCore.abc_mem (from_ptr_len 100 1) (from_ptr_len 101 2) = true.
Proof.
  destruct (@less_is_strict_order std_char_traits std_char_traits_laws
              std_char_traits_order ViewCore.abc_mem
              (from_ptr_len 100 1) (from_string 100 3) (from_ptr_len 101 2)
              ltac:(closed_range) ltac:(closed_range) ltac:(closed_range)
              ltac:(reflexivity) ltac:(reflexivity) ltac:(reflexivity))
    as (_ & Hirr & Htrans & _).
  split; [exact Hirr|]. split; [reflexivity|].
  apply Htrans; reflexivity.
Defined.

(** Over characters whose [eq] is an equivalence (reflexive, symmetric and
    transitive), [operator==] is an equivalence on views: every view equals
    itself, and equality is symmetric and transitive. *)
Theorem equal_is_equivalence {T : char_traits} (m : Mem)
  (x y z : basic_string_view)
  (Hrefl : forall a, eq a a = true)
  (Hsym : forall a b, eq a b = true -> eq b a = true)
  (Htrans : forall a b c, eq a b = true -> eq b c = true -> eq a c = true)
  (Hx : is_size_t (len_ x)) (Hy : is_size_t (len_ y)) (Hz : is_size_t (len_ z)) :
  equal m x x = true /\
  equal m x y = equal m y x /\
  (equal m x y = true -> equal m y z = true -> equal m x z = true).
Proof.
  assert (Hiff : forall a b, is_size_t (len_ a) -> is_size_t (len_ b) ->
            (equal m a b = true <->
             length a = length b /\
             forall k, 0 <= k < length a ->
                       eq (m (str_ a + k)) (m (str_ b + k)) = true)).
  { intros a b Ha Hb.
    rewrite (OrderFacts.equal_is_compare_zero m a b Ha Hb), Z.eqb_eq.
    apply OrderFacts.compare_zero_iff; assumption. }
  assert (Hflip : forall a b, is_size_t (len_ a) -> is_size_t (len_ b) ->
            equal m a b = true -> equal m b a = true).
  { intros a b Ha Hb Hab. apply (Hiff a b Ha Hb) in Hab. destruct Hab as [Hlen Hall].
    apply (Hiff b a Hb Ha). split; [congruence|].
    intros k Hk. apply Hsym, Hall. lia. }
  split; [|split].
  - apply (Hiff x x Hx Hx). split; [reflexivity|]. intros k _. apply Hrefl.
  - destruct (equal m x y) eqn:Exy, (equal m y x) eqn:Eyx; try reflexivity.
    + rewrite (Hflip x y Hx Hy Exy) in Eyx. discriminate.
    + rewrite (Hflip y x Hy Hx Eyx) in Exy. discriminate.
  - intros Hxy Hyz.
    apply (Hiff x y Hx Hy) in Hxy. apply (Hiff y z Hy Hz) in Hyz.
    destruct Hxy as [Hl1 Ha1]. destruct Hyz as [Hl2 Ha2].
    apply (Hiff x z Hx Hz). split; [congruence|].
    intros k Hk. apply (Htrans _ (m (str_ y + k)));
      [apply Ha1 | apply Ha2]; lia.
Qed.

Lemma equal_is_equivalence_witness :
  equal ViewCore.abc_mem (from_string 100 3) (from_string 100 3) = true /\
  equal ViewCore.abc_mem (from_string 100 3) (from_ptr_len 100 3)
  = equal ViewCore.abc_mem (from_ptr_len 100 3) (from_string 100 3) /\
  equal ViewCore.abc_mem (from_string 100 3) (from_ptr_len 100 3) = true.
Proof.
  destruct (@equal_is_equivalence std_char_traits ViewCore.abc_mem
              (from_string 100 3) (from_ptr_len 100 3) (from_ptr_len 100 3))
    as (Hrefl & Hsym & Htrans).
  - intros a. apply Z.eqb_refl.
  - intros a b H. simpl in *. now rewrite Z.eqb_sym.
  - intros a b c H1 H2. simpl in *. apply Z.eqb_eq in H1, H2. apply Z.eqb_eq.
    congruence.
  - closed_range.
  - closed_range.
  - closed_range.
  - split; [exact Hrefl|]. split; [exact Hsym|].
    apply Htrans; reflexivity.
Defined.

End StrictOrder.

(** ** More concrete cases *)

Module SearchExamples.
Import sv.

(** "abcabc", "hello" and "lo", each followed by a zero character. *)
Definition text : Mem :=
  mem_of 100 [97; 98; 99; 97; 98; 99; 0; 104; 101; 108; 108; 111; 0; 108; 111; 0].

Definition abcabc : basic_string_view := from_string 100 6.
Definition abc : basic_string_view := from_ptr_len 100 3.
Definition hello : basic_string_view := from_string 107 5.
Definition lo : basic_string_view := from_string 113 2.

Example rfind_abc_in_abcabc : rfind text abcabc abc npos = Some 3.
Proof. reflexivity. Qed.

Example rfind_abc_upto_2 : rfind text abcabc abc 2 = Some 0.
Proof. reflexivity. Qed.

Example find_first_of_lo_in_hello : find_first_of text hello lo 0 = Some 2.
Proof. reflexivity. Qed.

Example find_last_of_lo_in_hello : find_last_of text hello lo npos = Some 4.
Proof. reflexivity. Qed.

Example find_first_not_of_lo_in_hello : find_first_not_of text hello lo 0 = Some 0.
Proof. reflexivity. Qed.

Example find_last_not_of_lo_in_hello : find_last_not_of text hello lo npos = Some 1.
Proof. reflexivity. Qed.

Example find_l_in_hello : find_char text hello 108 0 = 2.
Proof. reflexivity. Qed.

Example rfind_l_in_hello : rfind_char text hello 108 npos = Some 3.
Proof. reflexivity. Qed.

Example abcabc_starts_with_abc : starts_with text abcabc abc = Returns true.
Proof. reflexivity. Qed.

Example abcabc_ends_with_abc : ends_with text abcabc abc = Returns true.
Proof. reflexivity. Qed.

Example abc_less_than_abcabc : less text abc abcabc = true.
Proof. reflexivity. Qed.

End SearchExamples.
